(** * winlogbeat/checkpoint: persistence of event log read positions

    A shallow embedding of [winlogbeat/checkpoint/checkpoint.go].

    The Go code mutates a [Checkpoint] through a pointer and talks to the
    operating system (files, clock, timers, log output).  Here the
    [Checkpoint] is a record passed from call to call, and everything
    outside the process is a [World] threaded by a small state monad [IO].
    Failures of system calls are not chosen by the program: the world
    carries a script of outcomes, one per call, so every theorem speaks
    about all ways the calls can fail.

    [gopkg.in/yaml.v2] is a library outside this repository; its two entry
    points are the operations of the class [YAML]. *)

From Stdlib Require Import ZArith Lia Ascii.
From stdpp Require Import gmap strings list sorting.

Local Open Scope Z_scope.

(** ** Go values *)

(** [time.Time] as an instant on the time line and [time.Duration] as a
    count of nanoseconds, both unbounded here. *)
Abbreviation Time := Z (only parsing).
Abbreviation Duration := Z (only parsing).
Definition time_Second : Duration := 1000000000.

(** Go's [int] on a 64-bit target: [numUpdates++] wraps
    ([int_incr_small]: below the largest [int] it adds one). *)
Definition int_wrap (z : Z) : Z := (z + 2 ^ 63) mod 2 ^ 64 - 2 ^ 63.
Definition int_incr (z : Z) : Z := int_wrap (z + 1).

(** An [error] value: what [os.IsNotExist] answers on it, and its text. *)
Record error := { IsNotExist : bool; Error : string }.

Definition os_IsNotExist (e : error) : bool := IsNotExist e.
Definition fmt_Errorf (msg : string) : error :=
  {| IsNotExist := false; Error := msg |}.
Definition ErrNotExist (op name : string) : error :=
  {| IsNotExist := true;
     Error := op +:+ " " +:+ name +:+ ": no such file or directory" |}.

(** ** The data persisted *)

(** [RecordNumber] is a [uint32]; the code only stores and copies it. *)
Record EventLogState := {
  Name : string;
  RecordNumber : N;
  Timestamp : Time
}.

Record PersistedState := {
  UpdateTime : Time;
  States : list EventLogState
}.

(** Go's zero values: what a map lookup of a missing key returns, and what
    [&PersistedState{}] points to. *)
Definition zero_EventLogState : EventLogState :=
  {| Name := ""; RecordNumber := 0%N; Timestamp := 0 |}.
Definition zero_PersistedState : PersistedState :=
  {| UpdateTime := 0; States := [] |}.

(** The two calls the code makes into the YAML library.  [yaml_Unmarshal]
    receives the value its [out] pointer refers to and returns it updated. *)
Class YAML := {
  yaml_Marshal : PersistedState → error + string;
  yaml_Unmarshal : string → PersistedState → error + PersistedState
}.

(** ** The world outside the process *)

(** What the environment decides about one system call: it succeeds, or it
    fails with an error after [transferred] bytes (only a write looks at
    that number). *)
Inductive Outcome :=
  | Succeeds
  | Fails (e : error) (transferred : nat).

Inductive Op :=
  | OpReadFile (name : string)
  | OpCreate (name : string)
  | OpWrite (name data : string)
  | OpClose (name : string)
  | OpRename (oldpath newpath : string)
  | OpTimerReset (d : Duration)
  | OpTimerStop.

Inductive LogEntry :=
  | LogErr (msg : string)
  | LogDebug (selector : string) (numUpdates : Z).

Record World := {
  fs : gmap string string;      (* path ↦ file contents *)
  clock : Time;
  script : list Outcome;        (* outcomes of the calls still to come *)
  trace : list Op;              (* calls made so far, oldest first *)
  logs : list LogEntry          (* libbeat/logp output, oldest first *)
}.

Definition IO (A : Type) : Type := World → A * World.

Definition ret {A} (a : A) : IO A := λ w, (a, w).
Definition bind {A B} (m : IO A) (k : A → IO B) : IO B :=
  λ w, let (a, w') := m w in k a w'.

Notation "x <- m ;; k" := (bind m (λ x, k))
  (at level 20, m at level 99, k at level 200, only parsing).
Notation "' p <- m ;; k" := (bind m (λ p, k))
  (at level 20, p pattern, m at level 99, k at level 200, only parsing).
Notation "m ;;; k" := (bind m (λ _, k))
  (at level 100, k at level 200, only parsing, right associativity).

Definition set_fs (f : gmap string string → gmap string string) (w : World) : World :=
  {| fs := f (fs w); clock := clock w; script := script w;
     trace := trace w; logs := logs w |}.
Definition set_clock (t : Time) (w : World) : World :=
  {| fs := fs w; clock := t; script := script w;
     trace := trace w; logs := logs w |}.
Definition set_script (s : list Outcome) (w : World) : World :=
  {| fs := fs w; clock := clock w; script := s;
     trace := trace w; logs := logs w |}.
Definition add_trace (o : Op) (w : World) : World :=
  {| fs := fs w; clock := clock w; script := script w;
     trace := trace w ++ [o]; logs := logs w |}.
Definition add_log (l : LogEntry) (w : World) : World :=
  {| fs := fs w; clock := clock w; script := script w;
     trace := trace w; logs := logs w ++ [l] |}.

Definition modify (f : World → World) : IO unit := λ w, (tt, f w).
Definition syscall (o : Op) : IO Outcome :=
  λ w, let w := add_trace o w in
       match script w with
       | [] => (Succeeds, w)
       | r :: rest => (r, set_script rest w)
       end.

(** [ioutil.ReadFile] *)
Definition ioutil_ReadFile (name : string) : IO (error + string) :=
  r <- syscall (OpReadFile name) ;;
  match r with
  | Fails e _ => ret (inl e)
  | Succeeds =>
      λ w, match fs w !! name with
           | None => (inl (ErrNotExist "open" name), w)
           | Some data => (inr data, w)
           end
  end.

(** [os.Create]: the file exists and is empty afterwards.  An open file is
    known by its path; the code closes it before it renames it. *)
Definition os_Create (name : string) : IO (error + string) :=
  r <- syscall (OpCreate name) ;;
  match r with
  | Fails e _ => ret (inl e)
  | Succeeds => modify (set_fs (insert name "")) ;;; ret (inr name)
  end.

(** [Write] on an [os.File]: a failed write may have appended a prefix. *)
Definition file_Write (f : string) (data : string) : IO (option error) :=
  r <- syscall (OpWrite f data) ;;
  let append (chunk : string) : World → World :=
    set_fs (λ m, <[f := default "" (m !! f) +:+ chunk]> m) in
  match r with
  | Fails e n =>
      modify (append (String.substring 0 n data)) ;;; ret (Some e)
  | Succeeds => modify (append data) ;;; ret None
  end.

(** [Close] on an [os.File] *)
Definition file_Close (f : string) : IO (option error) :=
  r <- syscall (OpClose f) ;;
  match r with
  | Fails e _ => ret (Some e)
  | Succeeds => ret None
  end.

(** [os.Rename]: all or nothing. *)
Definition os_Rename (oldpath newpath : string) : IO (option error) :=
  r <- syscall (OpRename oldpath newpath) ;;
  match r with
  | Fails e _ => ret (Some e)
  | Succeeds =>
      λ w, match fs w !! oldpath with
           | None => (Some (ErrNotExist "rename" oldpath), w)
           | Some data =>
               (None, set_fs (λ m, <[newpath := data]> (delete oldpath m)) w)
           end
  end.

(** [time.Now().UTC()] *)
Definition time_Now : IO Time := λ w, (clock w, w).

(** [logp.Err] and [logp.Debug] *)
Definition logp_Err (e : error) : IO unit := modify (add_log (LogErr (Error e))).
Definition logp_Debug (selector : string) (n : Z) : IO unit :=
  modify (add_log (LogDebug selector n)).

(** A [time.Timer]: when it is due, and whether it is still running. *)
Record Timer := { deadline : Time; armed : bool }.

Definition time_NewTimer (d : Duration) : IO Timer :=
  λ w, ({| deadline := clock w + d; armed := true |}, w).
Definition Timer_Reset (d : Duration) : IO Timer :=
  λ w, ({| deadline := clock w + d; armed := true |}, add_trace (OpTimerReset d) w).
Definition Timer_Stop (t : Timer) : IO Timer :=
  λ w, ({| deadline := deadline t; armed := false |}, add_trace OpTimerStop w).

(** [sort.Strings]: ascending in Go's [<] on strings, which compares byte
    by byte as [String.le] does. *)
Definition sort_Strings (l : list string) : list string :=
  merge_sort String.le l.

(** ** The checkpoint *)

(** The fields of the Go struct.  Of the synchronisation fields only what
    the sequential behaviour depends on is kept: the counter of the
    [sync.WaitGroup] (1 while the worker runs), whether the [done] channel
    is closed, and whether [once.Do] has run.  The [lock] guards [states]
    against readers in other goroutines and has no sequential content; the
    [save] channel delivers to the worker, in order, the values [Persist]
    sent. *)
Record Checkpoint := {
  wg : nat;
  done : bool;
  once : bool;
  file : string;
  numUpdates : Z;
  maxUpdates : Z;
  flushInterval : Duration;
  sort : list string;
  states : gmap string EventLogState
}.

Definition set_wg (n : nat) (c : Checkpoint) : Checkpoint :=
  {| wg := n; done := done c; once := once c; file := file c;
     numUpdates := numUpdates c; maxUpdates := maxUpdates c;
     flushInterval := flushInterval c; sort := sort c; states := states c |}.
Definition set_done (b : bool) (c : Checkpoint) : Checkpoint :=
  {| wg := wg c; done := b; once := once c; file := file c;
     numUpdates := numUpdates c; maxUpdates := maxUpdates c;
     flushInterval := flushInterval c; sort := sort c; states := states c |}.
Definition set_once (b : bool) (c : Checkpoint) : Checkpoint :=
  {| wg := wg c; done := done c; once := b; file := file c;
     numUpdates := numUpdates c; maxUpdates := maxUpdates c;
     flushInterval := flushInterval c; sort := sort c; states := states c |}.
Definition set_numUpdates (n : Z) (c : Checkpoint) : Checkpoint :=
  {| wg := wg c; done := done c; once := once c; file := file c;
     numUpdates := n; maxUpdates := maxUpdates c;
     flushInterval := flushInterval c; sort := sort c; states := states c |}.
Definition set_maxUpdates (n : Z) (c : Checkpoint) : Checkpoint :=
  {| wg := wg c; done := done c; once := once c; file := file c;
     numUpdates := numUpdates c; maxUpdates := n;
     flushInterval := flushInterval c; sort := sort c; states := states c |}.
Definition set_flushInterval (d : Duration) (c : Checkpoint) : Checkpoint :=
  {| wg := wg c; done := done c; once := once c; file := file c;
     numUpdates := numUpdates c; maxUpdates := maxUpdates c;
     flushInterval := d; sort := sort c; states := states c |}.
Definition set_sort (l : list string) (c : Checkpoint) : Checkpoint :=
  {| wg := wg c; done := done c; once := once c; file := file c;
     numUpdates := numUpdates c; maxUpdates := maxUpdates c;
     flushInterval := flushInterval c; sort := l; states := states c |}.
Definition set_states (m : gmap string EventLogState) (c : Checkpoint) : Checkpoint :=
  {| wg := wg c; done := done c; once := once c; file := file c;
     numUpdates := numUpdates c; maxUpdates := maxUpdates c;
     flushInterval := flushInterval c; sort := sort c; states := m |}.

(** [c.states[s.Name] = s] *)
Definition store (s : EventLogState) (c : Checkpoint) : Checkpoint :=
  set_states (<[Name s := s]> (states c)) c.

(** The worker goroutine between two iterations of its loop: the
    checkpoint it shares with the callers and its local [flushTimer]. *)
Record Proc := { self : Checkpoint; flushTimer : Timer }.

(** What a [select] of the worker can return with. *)
Inductive Wake :=
  | RecvDone
  | RecvSave (s : EventLogState)
  | RecvTimer.

(** What the environment does to a running worker: let time pass, or make
    its [select] return. *)
Inductive Event :=
  | Elapse (d : Duration)
  | Select (k : Wake).

(** How one pass through the [select] statement leaves it. *)
Inductive Next :=
  | BreakLoop          (* break loop *)
  | ContinueLoop       (* continue *)
  | FallThrough.       (* on to the statements after the select *)

Section Checkpoint.
Context {yaml : YAML}.

(** Lines 224-240. The result is Go's pair of a [PersistedState] pointer and an error. *)
Definition read (c : Checkpoint) : IO (option PersistedState * option error) :=
  r <- ioutil_ReadFile (file c) ;;
  match r with
  | inl err =>
      let err := if os_IsNotExist err then None else Some err in
      ret (None, err)
  | inr contents =>
      let ps := zero_PersistedState in
      match yaml_Unmarshal contents ps with
      | inl err => ret (None, Some err)
      | inr ps => ret (Some ps, None)
      end
  end.

(** Lines 188-201: the keys of [c.states], sorted, and the snapshot that
    lists the states in that order.  Go ranges over a map in an order of
    its choosing; [keys_sorted_any_order] below shows that the order does
    not reach the result. *)
Definition sorted_names (c : Checkpoint) : list string :=
  sort_Strings ((map_to_list (states c)).*1).

Definition snapshot (now : Time) (c : Checkpoint) : PersistedState :=
  {| UpdateTime := now;
     States := (λ name, default zero_EventLogState (states c !! name)) <$> sort c |}.

(** Lines 180-220. *)
Definition flush (c : Checkpoint) : IO (option error * Checkpoint) :=
  let tempFile := file c +:+ ".new" in
  r <- os_Create tempFile ;;
  match r with
  | inl err =>
      ret (Some (fmt_Errorf ("Failed to flush state to disk. Could not open "
                             +:+ tempFile +:+ ". " +:+ Error err)), c)
  | inr f =>
      let c := set_sort (sorted_names c) c in
      now <- time_Now ;;
      let ps := snapshot now c in
      match yaml_Marshal ps with
      | inl err =>
          file_Close f ;;;
          ret (Some (fmt_Errorf ("Failed to flush state to disk. Could not marshal "
                                 +:+ "data to YAML. " +:+ Error err)), c)
      | inr data =>
          err <- file_Write f data ;;
          match err with
          | Some err =>
              file_Close f ;;;
              ret (Some (fmt_Errorf ("Failed to flush state to disk. Could not write to "
                                     +:+ tempFile +:+ ". " +:+ Error err)), c)
          | None =>
              file_Close f ;;;
              err <- os_Rename tempFile (file c) ;;
              ret (err, c)
          end
      end
  end.

(** Lines 162-177. *)
Definition persist (c : Checkpoint) : IO (bool * Checkpoint) :=
  if numUpdates c =? 0 then ret (false, c)
  else
    '(err, c) <- flush c ;;
    match err with
    | Some err => logp_Err err ;;; ret (false, c)
    | None =>
        logp_Debug "checkpoint" (numUpdates c) ;;;
        ret (true, set_numUpdates 0 c)
    end.

(** Lines 70-73 and 75-78. *)
Definition minimum_batch_size (c : Checkpoint) : Checkpoint :=
  if maxUpdates c <? 1 then set_maxUpdates 1 c else c.
Definition minimum_flush_interval (c : Checkpoint) : Checkpoint :=
  if flushInterval c <? time_Second then set_flushInterval time_Second c else c.

(** Lines 59-95.  [go c.run()] starts the worker, which creates its timer
    before it first waits (line 103). *)
Definition NewCheckpoint (file : string) (maxUpdates : Z) (interval : Duration)
    : IO (option Proc * option error) :=
  let c := {| wg := 0; done := false; once := false; file := file;
              numUpdates := 0; maxUpdates := maxUpdates;
              flushInterval := interval; sort := []; states := ∅ |} in
  let c := minimum_batch_size c in
  let c := minimum_flush_interval c in
  '(ps, err) <- read c ;;
  match err with
  | Some err => ret (None, Some err)
  | None =>
      let c := match ps with
               | Some ps => foldl (λ c state, store state c) c (States ps)
               | None => c
               end in
      let c := set_wg (wg c + 1) c in
      flushTimer <- time_NewTimer (flushInterval c) ;;
      ret (Some {| self := c; flushTimer := flushTimer |}, None)
  end.

(** Lines 107-119: the [select] statement.  The [done] channel delivers
    only once it is closed; a wake-up it cannot produce leaves the worker
    waiting. *)
Definition run_select (k : Wake) (c : Checkpoint) : Next * Checkpoint :=
  match k with
  | RecvDone => if done c then (BreakLoop, c) else (ContinueLoop, c)
  | RecvSave s =>
      let c := store s c in
      let c := set_numUpdates (int_incr (numUpdates c)) c in
      if numUpdates c <? maxUpdates c then (ContinueLoop, c) else (FallThrough, c)
  | RecvTimer => (FallThrough, c)
  end.

(** Lines 106-123: one iteration of the loop; [false] when it was left. *)
Definition run_iteration (k : Wake) (p : Proc) : IO (bool * Proc) :=
  match run_select k (self p) with
  | (BreakLoop, c) => ret (false, {| self := c; flushTimer := flushTimer p |})
  | (ContinueLoop, c) => ret (true, {| self := c; flushTimer := flushTimer p |})
  | (FallThrough, c) =>
      '(_, c) <- persist c ;;
      flushTimer <- Timer_Reset (flushInterval c) ;;
      ret (true, {| self := c; flushTimer := flushTimer |})
  end.

(** The loop under a schedule of events; [true] when the worker is still
    in the loop once the schedule is used up. *)
Fixpoint run_loop (evs : list Event) (p : Proc) : IO (bool * Proc) :=
  match evs with
  | [] => ret (true, p)
  | Elapse d :: evs => modify (λ w, set_clock (clock w + Z.max 0 d) w) ;;; run_loop evs p
  | Select k :: evs =>
      '(again, p) <- run_iteration k p ;;
      if again then run_loop evs p else ret (false, p)
  end.

(** Line 125 and the deferred calls of lines 101 and 104, last first. *)
Definition run_exit (p : Proc) : IO Proc :=
  '(_, c) <- persist (self p) ;;
  flushTimer <- Timer_Stop (flushTimer p) ;;
  ret {| self := set_wg (wg c - 1) c; flushTimer := flushTimer |}.

(** The worker goroutine under a schedule, from wherever it is. *)
Definition run (evs : list Event) (p : Proc) : IO Proc :=
  if decide (wg (self p) = 0%nat) then ret p
  else
    '(again, p) <- run_loop evs p ;;
    if again then ret p else run_exit p.

(** Lines 131-136.  [c.wg.Wait()] returns when the worker has left; until
    its [select] picks the closed [done] channel the worker serves what
    else is ready, which is the schedule [pending]. *)
Definition Shutdown (pending : list Event) (p : Proc) : IO Proc :=
  if once (self p) then ret p
  else
    let p := {| self := set_once true (self p); flushTimer := flushTimer p |} in
    let p := {| self := set_done true (self p); flushTimer := flushTimer p |} in
    run (pending ++ [Select RecvDone]) p.

(** Lines 140-150, the method [States]: a copy of the map, entry by
    entry. *)
Definition Checkpoint_States (c : Checkpoint) : gmap string EventLogState :=
  map_fold (λ k v copy, <[k := v]> copy) ∅ (states c).

(** Lines 153-159: the value [Persist] sends on the [save] channel. *)
Definition Persist (name : string) (recordNumber : N) (ts : Time) : EventLogState :=
  {| Name := name; RecordNumber := recordNumber; Timestamp := ts |}.

End Checkpoint.

(** ** A YAML codec to run examples with

    A line-oriented reading of the layout the file has on disk,
<<
    update_time: 1700
    event_logs:
    - name: Application
      record_number: 10
      timestamp: 1650
>>
    with instants written as integers.  It stands in for the library where
    an example has to compute; no theorem below depends on it. *)
Module SampleYAML.

Definition nl : string := String "010"%char "".

Fixpoint digits (fuel : nat) (n : N) (acc : string) : string :=
  match fuel with
  | O => acc
  | S fuel =>
      let acc := String (ascii_of_N (48 + n mod 10)) acc in
      if (n / 10 =? 0)%N then acc else digits fuel (n / 10)%N acc
  end.
Definition show_N (n : N) : string := digits (S (N.to_nat (N.log2 n))) n "".
Definition show_Z (z : Z) : string :=
  if z <? 0 then "-" +:+ show_N (Z.abs_N z) else show_N (Z.to_N z).

Fixpoint read_digits (s : string) (acc : N) : option N :=
  match s with
  | "" => Some acc
  | String a s =>
      let d := N_of_ascii a in
      if ((48 <=? d) && (d <=? 57))%N
      then read_digits s (acc * 10 + (d - 48))%N else None
  end.
Definition parse_N (s : string) : option N :=
  match s with "" => None | _ => read_digits s 0%N end.
Definition parse_Z (s : string) : option Z :=
  match s with
  | String "-"%char r => n ← parse_N r; Some (- Z.of_N n)
  | _ => n ← parse_N s; Some (Z.of_N n)
  end.

Fixpoint lines_go (cur : string) (s : string) : list string :=
  match s with
  | "" => match cur with "" => [] | _ => [String.rev cur] end
  | String a s =>
      if Ascii.eqb a "010"%char then String.rev cur :: lines_go "" s
      else lines_go (String a cur) s
  end.
Definition lines : string → list string := lines_go "".

Fixpoint strip_prefix (p s : string) : option string :=
  match p, s with
  | "", _ => Some s
  | String a p, String b s => if Ascii.eqb a b then strip_prefix p s else None
  | _, _ => None
  end.

Definition one_line (s : string) : bool :=
  bool_decide (lines (s +:+ nl) = [s]).

Definition show_entry (s : EventLogState) : string :=
  "- name: " +:+ Name s +:+ nl +:+
  "  record_number: " +:+ show_N (RecordNumber s) +:+ nl +:+
  "  timestamp: " +:+ show_Z (Timestamp s) +:+ nl.

Definition Marshal (ps : PersistedState) : error + string :=
  if forallb (λ s, one_line (Name s)) (States ps) then
    inr ("update_time: " +:+ show_Z (UpdateTime ps) +:+ nl +:+
         match States ps with
         | [] => "event_logs: []" +:+ nl
         | l => "event_logs:" +:+ nl +:+ foldr (λ s acc, show_entry s +:+ acc) "" l
         end)
  else inl (fmt_Errorf "yaml: name spans several lines").

Fixpoint parse_entries (ls : list string) : option (list EventLogState) :=
  match ls with
  | [] => Some []
  | l1 :: l2 :: l3 :: rest =>
      name ← strip_prefix "- name: " l1;
      rn ← strip_prefix "  record_number: " l2 ≫= parse_N;
      ts ← strip_prefix "  timestamp: " l3 ≫= parse_Z;
      tail ← parse_entries rest;
      Some ({| Name := name; RecordNumber := rn; Timestamp := ts |} :: tail)
  | _ => None
  end.

Definition parse (ls : list string) : option PersistedState :=
  match ls with
  | l1 :: l2 :: rest =>
      t ← strip_prefix "update_time: " l1 ≫= parse_Z;
      entries ← (if String.eqb l2 "event_logs: []"
                 then match rest with [] => Some [] | _ => None end
                 else if String.eqb l2 "event_logs:" then parse_entries rest
                 else None);
      Some {| UpdateTime := t; States := entries |}
  | _ => None
  end.

(** Input without a document leaves [out] as it is, as the library does. *)
Definition Unmarshal (data : string) (out : PersistedState) : error + PersistedState :=
  match lines data with
  | [] => inr out
  | ls => match parse ls with
          | Some ps => inr ps
          | None => inl (fmt_Errorf "yaml: unmarshal errors")
          end
  end.

Definition codec : YAML :=
  {| yaml_Marshal := Marshal; yaml_Unmarshal := Unmarshal |}.

(** A world with the given files, a clock and a script of outcomes. *)
Definition world (files : list (string * string)) (now : Time)
    (outcomes : list Outcome) : World :=
  {| fs := list_to_map files; clock := now; script := outcomes;
     trace := []; logs := [] |}.

Definition app_log : EventLogState := Persist "Application" 10 1650.
Definition sec_log : EventLogState := Persist "Security" 7 1660.
Definition sys_log : EventLogState := Persist "System" 42 1670.

(** A running checkpoint on ["cp.yml"] with three logs recorded, two
    updates of them not yet written. *)
Definition busy : Proc :=
  {| self := {| wg := 1; done := false; once := false; file := "cp.yml";
                numUpdates := 2; maxUpdates := 3; flushInterval := time_Second;
                sort := [];
                states := <["System" := sys_log]>
                            (<["Application" := app_log]>
                               (<["Security" := sec_log]> ∅)) |};
     flushTimer := {| deadline := 5000; armed := true |} |}.

(** The same checkpoint with nothing pending. *)
Definition idle : Proc :=
  {| self := set_numUpdates 0 (self busy); flushTimer := flushTimer busy |}.

Definition eio : error := fmt_Errorf "input/output error".

(** A snapshot and the text this codec stores for it. *)
Definition saved : PersistedState :=
  {| UpdateTime := 1700; States := [app_log; sec_log; sys_log] |}.
Definition saved_text : string :=
  match Marshal saved with inr data => data | inl _ => "" end.

(** A whole session: open, let the worker run under a schedule, and
    shut down if asked to. *)
Definition session (path : string) (maxUpdates : Z) (interval : Duration)
    (evs : list Event) (close : bool) (w : World) : option Proc * World :=
  let '(p, _, w) := NewCheckpoint (yaml := codec) path maxUpdates interval w in
  match p with
  | None => (None, w)
  | Some p =>
      let '(p, w) := run (yaml := codec) evs p w in
      if close
      then let '(p, w) := Shutdown (yaml := codec) [] p w in (Some p, w)
      else (Some p, w)
  end.

(** The entries a later process would load from [path]. *)
Definition reload (path : string) (w : World) : option (list EventLogState) :=
  data ← fs w !! path;
  match Unmarshal data zero_PersistedState with
  | inr ps => Some (States ps)
  | inl _ => None
  end.

End SampleYAML.

(** ** A YAML codec with the library's time stamps

    [gopkg.in/yaml.v2] (v2.4.0) writes a [time.Time] as its RFC 3339 text
    with nanoseconds, the year with as many digits as it has and at least
    four.  Reading, it takes a scalar for a time stamp only if it starts
    with exactly four digits and a dash, and it reports an error when
    anything else is to fill a [time.Time].  This codec does the same with
    the instants of the model, read as nanoseconds since 1970 in UTC; it
    reads the time stamps it writes itself, and the rest of its layout is
    that of [SampleYAML]. *)
Module Yaml24.

(** The civil date of a day counted from 1970-01-01, and back. *)
Definition civil_from_days (z : Z) : Z * Z * Z :=
  let z := z + 719468 in
  let era := z / 146097 in
  let doe := z - era * 146097 in
  let yoe := (doe - doe / 1460 + doe / 36524 - doe / 146096) / 365 in
  let doy := doe - (365 * yoe + yoe / 4 - yoe / 100) in
  let mp := (5 * doy + 2) / 153 in
  let d := doy - (153 * mp + 2) / 5 + 1 in
  let m := if mp <? 10 then mp + 3 else mp - 9 in
  (yoe + era * 400 + (if m <=? 2 then 1 else 0), m, d).

Definition days_from_civil (y m d : Z) : Z :=
  let y := if m <=? 2 then y - 1 else y in
  let era := y / 400 in
  let yoe := y - era * 400 in
  let doy := (153 * (if 2 <? m then m - 3 else m + 9) + 2) / 5 + d - 1 in
  let doe := yoe * 365 + yoe / 4 - yoe / 100 + doy in
  era * 146097 + doe - 719468.

Fixpoint zeros (n : nat) : string :=
  match n with O => "" | S n => String "0"%char (zeros n) end.

(** A number in at least [width] digits. *)
Definition pad (width : nat) (n : Z) : string :=
  let s := SampleYAML.show_N (Z.to_N n) in
  zeros (width - String.length s) +:+ s.

Fixpoint drop_zeros (s : string) : string :=
  match s with
  | String "0"%char s' => drop_zeros s'
  | _ => s
  end.

Definition show_fraction (ns : Z) : string :=
  if ns =? 0 then ""
  else "." +:+ String.rev (drop_zeros (String.rev (pad 9 ns))).

(** [t.Format(time.RFC3339Nano)] of an instant in UTC. *)
Definition show_time (t : Time) : string :=
  let secs := t / 1000000000 in
  let ns := t mod 1000000000 in
  let sod := secs mod 86400 in
  let '(y, m, d) := civil_from_days (secs / 86400) in
  (if y <? 0 then "-" +:+ pad 4 (- y) else pad 4 y) +:+ "-" +:+
  pad 2 m +:+ "-" +:+ pad 2 d +:+ "T" +:+
  pad 2 (sod / 3600) +:+ ":" +:+ pad 2 (sod mod 3600 / 60) +:+ ":" +:+
  pad 2 (sod mod 60) +:+ show_fraction ns +:+ "Z".

(** Exactly [n] digits and then [sep]. *)
Definition digits_then (n : nat) (sep : string) (s : string) : option (Z * string) :=
  let ds := String.substring 0 n s in
  if bool_decide (String.length ds = n) then
    v ← SampleYAML.parse_N ds;
    rest ← SampleYAML.strip_prefix sep (String.substring n (String.length s - n) s);
    Some (Z.of_N v, rest)
  else None.

Fixpoint span_digits (s : string) : string * string :=
  match s with
  | String a s' =>
      if ((48 <=? N_of_ascii a) && (N_of_ascii a <=? 57))%N
      then let '(ds, rest) := span_digits s' in (String a ds, rest)
      else ("", s)
  | "" => ("", "")
  end.

(** The nanoseconds of what follows the seconds: ["Z"], or a fraction of
    up to nine digits and ["Z"]. *)
Definition parse_fraction (s : string) : option Z :=
  match s with
  | "Z" => Some 0
  | String "."%char s' =>
      let '(ds, rest) := span_digits s' in
      if bool_decide (rest = "Z" ∧ 0 < String.length ds ≤ 9)%nat
      then Z.of_N <$> SampleYAML.parse_N (ds +:+ zeros (9 - String.length ds))
      else None
  | _ => None
  end.

(** A time stamp begins with a year of exactly four digits. *)
Definition parse_time (s : string) : option Time :=
  '(y, s) ← digits_then 4 "-" s;
  '(m, s) ← digits_then 2 "-" s;
  '(d, s) ← digits_then 2 "T" s;
  '(h, s) ← digits_then 2 ":" s;
  '(mi, s) ← digits_then 2 ":" s;
  '(sec, s) ← digits_then 2 "" s;
  ns ← parse_fraction s;
  Some ((days_from_civil y m d * 86400 + h * 3600 + mi * 60 + sec) * 1000000000 + ns).

Definition show_entry (s : EventLogState) : string :=
  "- name: " +:+ Name s +:+ SampleYAML.nl +:+
  "  record_number: " +:+ SampleYAML.show_N (RecordNumber s) +:+ SampleYAML.nl +:+
  "  timestamp: " +:+ show_time (Timestamp s) +:+ SampleYAML.nl.

Definition Marshal (ps : PersistedState) : error + string :=
  if forallb (λ s, SampleYAML.one_line (Name s)) (States ps) then
    inr ("update_time: " +:+ show_time (UpdateTime ps) +:+ SampleYAML.nl +:+
         match States ps with
         | [] => "event_logs: []" +:+ SampleYAML.nl
         | l => "event_logs:" +:+ SampleYAML.nl +:+
                foldr (λ s acc, show_entry s +:+ acc) "" l
         end)
  else inl (fmt_Errorf "yaml: name spans several lines").

Fixpoint parse_entries (ls : list string) : option (list EventLogState) :=
  match ls with
  | [] => Some []
  | l1 :: l2 :: l3 :: rest =>
      name ← SampleYAML.strip_prefix "- name: " l1;
      rn ← SampleYAML.strip_prefix "  record_number: " l2 ≫= SampleYAML.parse_N;
      ts ← SampleYAML.strip_prefix "  timestamp: " l3 ≫= parse_time;
      tail ← parse_entries rest;
      Some ({| Name := name; RecordNumber := rn; Timestamp := ts |} :: tail)
  | _ => None
  end.

Definition parse (ls : list string) : option PersistedState :=
  match ls with
  | l1 :: l2 :: rest =>
      t ← SampleYAML.strip_prefix "update_time: " l1 ≫= parse_time;
      entries ← (if String.eqb l2 "event_logs: []"
                 then match rest with [] => Some [] | _ => None end
                 else if String.eqb l2 "event_logs:" then parse_entries rest
                 else None);
      Some {| UpdateTime := t; States := entries |}
  | _ => None
  end.

Definition Unmarshal (data : string) (out : PersistedState) : error + PersistedState :=
  match SampleYAML.lines data with
  | [] => inr out
  | ls => match parse ls with
          | Some ps => inr ps
          | None => inl (fmt_Errorf "yaml: unmarshal errors")
          end
  end.

Definition codec : YAML :=
  {| yaml_Marshal := Marshal; yaml_Unmarshal := Unmarshal |}.

(** 2016-03-01T12:30:00.5Z, and the first instant of the year 10000. *)
Definition spring_2016 : Time := 1456835400500000000.
Definition year_10000 : Time := 253402300800000000000.

(** A checkpoint on ["cp.yml"] with one update pending, for a log whose
    last event carries the given time. *)
Definition one_log (ts : Time) : Checkpoint :=
  {| wg := 1; done := false; once := false; file := "cp.yml";
     numUpdates := 1; maxUpdates := 1; flushInterval := time_Second;
     sort := [];
     states := <["Application" := Persist "Application" 10 ts]> ∅ |}.

End Yaml24.

(** ** Reading the model *)

(** The outcome the next system call gets. *)
Definition next_outcome (w : World) : Outcome :=
  default Succeeds (head (script w)).

(** The outcome the call after [n] others gets. *)
Definition outcome_at (n : nat) (w : World) : Outcome :=
  default Succeeds (script w !! n).

(** The calls that touch storage, and the flushes begun: each [flush]
    starts with its one [os.Create], which nothing else calls. *)
Definition is_storage (o : Op) : bool :=
  match o with
  | OpTimerReset _ | OpTimerStop => false
  | _ => true
  end.
Definition storage_ops (tr : list Op) : list Op := filter is_storage tr.

Definition is_create (o : Op) : bool :=
  match o with OpCreate _ => true | _ => false end.
Definition flush_attempts (tr : list Op) : nat := length (filter is_create tr).

(** Every entry sits under its own name. *)
Definition keyed (m : gmap string EventLogState) : Prop :=
  map_Forall (λ k s, Name s = k) m.

(** The last state in a list that carries the given name. *)
Fixpoint latest (name : string) (l : list EventLogState) : option EventLogState :=
  match l with
  | [] => None
  | s :: l =>
      match latest name l with
      | Some s' => Some s'
      | None => if decide (Name s = name) then Some s else None
      end
  end.

(** The states a schedule hands to the worker before the worker leaves its
    loop; [closed] tells whether [done] is closed. *)
Fixpoint served (closed : bool) (evs : list Event) : list EventLogState :=
  match evs with
  | [] => []
  | Select (RecvSave s) :: evs => s :: served closed evs
  | Select RecvDone :: evs => if closed then [] else served closed evs
  | _ :: evs => served closed evs
  end.

(** The trigger policy in the words of its description: the count of
    pending updates, this one included, has reached the threshold, or the
    timer fired. *)
Definition pending_with (k : Wake) (c : Checkpoint) : Z :=
  match k with
  | RecvSave _ => int_incr (numUpdates c)
  | _ => numUpdates c
  end.
Definition flush_due (k : Wake) (c : Checkpoint) : bool :=
  match k with
  | RecvTimer => true
  | RecvSave _ => maxUpdates c <=? pending_with k c
  | RecvDone => false
  end.

(** The update a wake-up carries, applied to the table and the counter. *)
Definition received (k : Wake) (c : Checkpoint) : Checkpoint :=
  match k with
  | RecvSave s => set_numUpdates (int_incr (numUpdates c)) (store s c)
  | _ => c
  end.

(** The struct of lines 60-78, before anything is read. *)
Definition initial (file : string) (maxUpdates : Z) (interval : Duration) : Checkpoint :=
  minimum_flush_interval
    (minimum_batch_size
       {| wg := 0; done := false; once := false; file := file;
          numUpdates := 0; maxUpdates := maxUpdates;
          flushInterval := interval; sort := []; states := ∅ |}).

(** What a run of the loop did that bears on the count of pending
    updates: it took an update, or a call of [persist] returned [true]. *)
Inductive Mark :=
  | Taken
  | Saved.

Section History.
Context {yaml : YAML}.

Definition marks_of (k : Wake) (p : Proc) (w : World) : list Mark :=
  match k with RecvSave _ => [Taken] | _ => [] end ++
  (if flush_due k (self p) && (persist (received k (self p)) w).1.1
   then [Saved] else []).

Fixpoint history (evs : list Event) (p : Proc) (w : World) : list Mark :=
  match evs with
  | [] => []
  | Elapse d :: evs => history evs p (set_clock (clock w + Z.max 0 d) w)
  | Select k :: evs =>
      let '(again, p', w') := run_iteration k p w in
      marks_of k p w ++ (if again then history evs p' w' else [])
  end.

End History.

(** The table a process would start with that opened [path] in this world
    and could read it: none when the file does not unmarshal. *)
Definition on_disk {yaml : YAML} (path : string) (w : World)
    : option (gmap string EventLogState) :=
  match fs w !! path with
  | None => Some ∅
  | Some data =>
      match yaml_Unmarshal data zero_PersistedState with
      | inl _ => None
      | inr ps => Some (foldl (λ m s, <[Name s := s]> m) ∅ (States ps))
      end
  end.

(** The YAML library gives back this snapshot if it marshals it at all. *)
Definition round_trips {yaml : YAML} (ps : PersistedState) : Prop :=
  ∀ data, yaml_Marshal ps = inr data →
          yaml_Unmarshal data zero_PersistedState = inr ps.

(** The YAML library marshals this snapshot. *)
Definition marshals {yaml : YAML} (ps : PersistedState) : Prop :=
  ∃ data, yaml_Marshal ps = inr data.

(** The file at [path] is in [w'] what it was in [w], or it is all of
    what the YAML library made of some snapshot. *)
Definition kept_or_whole {yaml : YAML} (path : string) (w w' : World) : Prop :=
  fs w' !! path = fs w !! path ∨
  ∃ ps data, yaml_Marshal ps = inr data ∧ fs w' !! path = Some data.

(** When nothing is pending, the disk holds the table. *)
Definition in_sync {yaml : YAML} (c : Checkpoint) (w : World) : Prop :=
  numUpdates c = 0 → on_disk (file c) w = Some (states c).

Section Snapshots.
Context {yaml : YAML}.

(** The snapshot a call of [persist] has to write, if any. *)
Definition due_snapshot (c : Checkpoint) (w : World) : list PersistedState :=
  if numUpdates c =? 0 then []
  else [snapshot (clock w) (set_sort (sorted_names c) c)].

(** The snapshots the calls of [persist] in a run of the loop have to
    write, and those of the whole worker, its way out included. *)
Fixpoint loop_snapshots (evs : list Event) (p : Proc) (w : World)
    : list PersistedState :=
  match evs with
  | [] => []
  | Elapse d :: evs => loop_snapshots evs p (set_clock (clock w + Z.max 0 d) w)
  | Select k :: evs =>
      let '(again, p', w') := run_iteration k p w in
      (if flush_due k (self p) then due_snapshot (received k (self p)) w else [])
      ++ (if again then loop_snapshots evs p' w' else [])
  end.

Definition run_snapshots (evs : list Event) (p : Proc) (w : World)
    : list PersistedState :=
  let '(again, p', w') := run_loop evs p w in
  loop_snapshots evs p w ++ (if again then [] else due_snapshot (self p') w').

End Snapshots.

(** A checkpoint as the first [Shutdown] leaves it to the worker. *)
Definition shutting_down (p : Proc) : Proc :=
  {| self := set_done true (set_once true (self p)); flushTimer := flushTimer p |}.

(** The updates taken since the last [Saved], counted as an [int] counts,
    on top of [n] when nothing was saved. *)
Definition count_pending (n : Z) (h : list Mark) : Z :=
  foldl (λ n m, match m with Taken => int_incr n | Saved => 0 end) n h.

(** ** System calls *)

Lemma int_incr_small (n : Z) : - 2 ^ 63 ≤ n < 2 ^ 63 - 1 → int_incr n = n + 1.
Proof.
  intros H. unfold int_incr, int_wrap.
  rewrite Z.mod_small by lia. lia.
Qed.

Lemma syscall_eq o w :
  syscall o w = (next_outcome w, set_script (tail (script w)) (add_trace o w)).
Proof. destruct w as [? ? [|r rest] ? ?]; reflexivity. Qed.

Lemma temp_file_differs (s t : string) : t ≠ "" → s +:+ t ≠ s.
Proof.
  intros Ht Heq. apply Ht. clear Ht.
  induction s as [|a s IH]; [exact Heq|].
  apply IH. by injection Heq.
Qed.

Lemma new_suffix_differs (s : string) : s +:+ ".new" ≠ s.
Proof. by apply temp_file_differs. Qed.

(** ** The table *)

Lemma latest_elem name l s : latest name l = Some s → s ∈ l ∧ Name s = name.
Proof.
  induction l as [|x l IH]; simpl; [done|].
  destruct (latest name l) as [s'|].
  - intros [= <-]. destruct IH as [? ?]; [done|]. split; [by right|done].
  - case_decide; [|done]. intros [= <-]. split; [by left|done].
Qed.

Lemma latest_None name l : latest name l = None ↔ ∀ s, s ∈ l → Name s ≠ name.
Proof.
  induction l as [|x l IH]; simpl.
  - split; [|done]. intros _ s Hs. by apply elem_of_nil in Hs.
  - destruct (latest name l) as [s'|] eqn:E.
    + split; [done|]. intros H. apply latest_elem in E as [? ?].
      exfalso. eapply H; [by right|done].
    + case_decide as Hx.
      * split; [done|]. intros H. exfalso. eapply H; [by left|done].
      * split; [|done]. intros _ s [->|Hs]%elem_of_cons; [done|].
        by apply IH.
Qed.

Lemma latest_app name l1 l2 :
  latest name (l1 ++ l2) =
  match latest name l2 with Some s => Some s | None => latest name l1 end.
Proof.
  induction l1 as [|x l1 IH]; simpl.
  - by destruct (latest name l2).
  - rewrite IH. by destruct (latest name l2).
Qed.

Lemma states_foldl_store (l : list EventLogState) (c : Checkpoint) :
  states (foldl (λ c state, store state c) c l) =
  foldl (λ m s, <[Name s := s]> m) (states c) l.
Proof. revert c. induction l as [|s l IH]; intros c; simpl; [done|]. by rewrite IH. Qed.

Lemma foldl_store_frame (l : list EventLogState) (c : Checkpoint) :
  let c' := foldl (λ c state, store state c) c l in
  wg c' = wg c ∧ done c' = done c ∧ once c' = once c ∧ file c' = file c ∧
  numUpdates c' = numUpdates c ∧ maxUpdates c' = maxUpdates c ∧
  flushInterval c' = flushInterval c ∧ sort c' = sort c.
Proof.
  revert c. induction l as [|s l IH]; intros c; simpl; [done|].
  apply (IH (store s c)).
Qed.

Lemma lookup_foldl_insert (l : list EventLogState) (m : gmap string EventLogState) name :
  foldl (λ m s, <[Name s := s]> m) m l !! name =
  match latest name l with Some s => Some s | None => m !! name end.
Proof.
  revert m. induction l as [|x l IH]; intros m; simpl; [done|].
  rewrite IH. destruct (latest name l); [done|].
  case_decide as Hx.
  - subst. by rewrite lookup_insert_eq.
  - by rewrite lookup_insert_ne.
Qed.

Lemma keyed_insert (m : gmap string EventLogState) s :
  keyed m → keyed (<[Name s := s]> m).
Proof. intros Hm. by apply map_Forall_insert_2. Qed.

Lemma keyed_foldl_insert (l : list EventLogState) (m : gmap string EventLogState) :
  keyed m → keyed (foldl (λ m s, <[Name s := s]> m) m l).
Proof.
  revert m. induction l as [|x l IH]; intros m Hm; simpl; [done|].
  by apply IH, keyed_insert.
Qed.

Lemma Checkpoint_States_eq (c : Checkpoint) : Checkpoint_States c = states c.
Proof.
  unfold Checkpoint_States.
  induction (states c) as [|k v m Hk Hfold IH] using map_first_key_ind; [done|].
  rewrite map_fold_insert_first_key by done. by rewrite IH.
Qed.

(** ** The sorted names *)

Lemma sorted_names_perm (c : Checkpoint) :
  sorted_names c ≡ₚ (map_to_list (states c)).*1.
Proof. apply merge_sort_Permutation. Qed.

Lemma sorted_names_Sorted (c : Checkpoint) : Sorted String.le (sorted_names c).
Proof. apply (Sorted_merge_sort String.le). Qed.

Lemma sorted_names_NoDup (c : Checkpoint) : NoDup (sorted_names c).
Proof. rewrite sorted_names_perm. apply NoDup_fst_map_to_list. Qed.

(** X17.  Whatever order the range over the map produced its keys in,
    sorting ends in the same list: the snapshot does not depend on Go's
    map iteration order. *)
Lemma keys_sorted_any_order (c : Checkpoint) (ks : list string) :
  ks ≡ₚ (map_to_list (states c)).*1 → sort_Strings ks = sorted_names c.
Proof.
  intros Hks.
  apply (Sorted_unique String.le).
  - apply (Sorted_merge_sort String.le).
  - apply sorted_names_Sorted.
  - unfold sort_Strings. by rewrite merge_sort_Permutation, sorted_names_perm.
Qed.

Lemma lookup_keys_values (m : gmap string EventLogState) :
  (λ name, default zero_EventLogState (m !! name)) <$> (map_to_list m).*1
  = (map_to_list m).*2.
Proof.
  assert (Forall (λ kv, m !! kv.1 = Some kv.2) (map_to_list m)) as H.
  { apply Forall_forall. intros [k v] Hkv. by apply elem_of_map_to_list in Hkv. }
  induction H as [|[k v] l Hkv _ IH]; [done|].
  rewrite !fmap_cons, IH. simpl in *. by rewrite Hkv.
Qed.

Lemma snapshot_entries now (c : Checkpoint) :
  States (snapshot now (set_sort (sorted_names c) c)) ≡ₚ (map_to_list (states c)).*2.
Proof.
  simpl. rewrite <-lookup_keys_values. apply fmap_Permutation, sorted_names_perm.
Qed.

Lemma snapshot_names now (c : Checkpoint) :
  keyed (states c) →
  Name <$> States (snapshot now (set_sort (sorted_names c) c)) = sorted_names c.
Proof.
  intros Hc. simpl. rewrite <-list_fmap_compose.
  rewrite <-(list_fmap_id (sorted_names c)) at 2.
  apply Forall_fmap_ext_1, Forall_forall. intros k Hk. simpl.
  rewrite sorted_names_perm in Hk.
  apply list_elem_of_fmap in Hk as [[k' v] [-> Hkv]].
  apply elem_of_map_to_list in Hkv. simpl. rewrite Hkv. simpl. by apply Hc in Hkv.
Qed.

Lemma values_keyed (m : gmap string EventLogState) (l : list EventLogState) name :
  keyed m → l ≡ₚ (map_to_list m).*2 → latest name l = m !! name.
Proof.
  intros Hm Hl.
  assert (∀ s, s ∈ l ↔ m !! Name s = Some s) as Hin.
  { intros s. rewrite Hl, list_elem_of_fmap. split.
    - intros [[k v] [-> Hkv]]. apply elem_of_map_to_list in Hkv. simpl.
      by rewrite (Hm _ _ Hkv).
    - intros Hs. exists (Name s, s). split; [done|]. by apply elem_of_map_to_list. }
  destruct (latest name l) as [s|] eqn:E.
  - apply latest_elem in E as [Hs <-]. symmetry. by apply Hin.
  - destruct (m !! name) as [v|] eqn:Ev; [|done].
    exfalso. eapply latest_None; [exact E| |by apply (Hm _ _ Ev)].
    apply Hin. by rewrite (Hm _ _ Ev).
Qed.

Lemma keyed_names (m : gmap string EventLogState) :
  keyed m → Name <$> (map_to_list m).*2 = (map_to_list m).*1.
Proof.
  intros Hm.
  assert (Forall (λ kv, Name kv.2 = kv.1) (map_to_list m)) as H.
  { apply Forall_forall. intros [k v] Hkv. apply elem_of_map_to_list in Hkv.
    by apply Hm in Hkv. }
  induction H as [|[k v] l Hkv _ IH]; [done|].
  rewrite !fmap_cons, IH. simpl in *. by rewrite Hkv.
Qed.

Lemma storage_ops_timer (tr : list Op) (o : Op) :
  is_storage o = false → storage_ops (tr ++ [o]) = storage_ops tr.
Proof.
  intros Ho. unfold storage_ops. rewrite filter_app, filter_cons, Ho. simpl.
  by rewrite filter_nil, app_nil_r.
Qed.

Section Proofs.
Context {yaml : YAML}.

(** ** [flush] *)

(** What a flush that fails and a flush that succeeds leave behind. *)
Lemma flush_spec (c : Checkpoint) (w : World) err c' w' :
  flush c w = (err, c', w') →
  let tempFile := file c +:+ ".new" in
  let c1 := set_sort (sorted_names c) c in
  clock w' = clock w ∧ logs w' = logs w ∧
  (∃ ops, trace w' = trace w ++ OpCreate tempFile :: ops ∧
          filter is_create ops = [] ∧ storage_ops ops = ops) ∧
  (c' = c ∨ c' = c1) ∧
  match err with
  | Some e => ∀ path, path ≠ tempFile → fs w' !! path = fs w !! path
  | None =>
      c' = c1 ∧
      ∃ data, yaml_Marshal (snapshot (clock w) c1) = inr data ∧
              fs w' = <[file c := data]> (delete tempFile (fs w))
  end.
Proof.
  unfold flush, os_Create, file_Write, file_Close, os_Rename, time_Now, bind, ret, modify.
  set (tmp := file c +:+ ".new").
  rewrite syscall_eq.
  destruct (next_outcome w) as [|e n]; simpl.
  2:{ intros [= <- <- <-]. simpl. repeat split; try done.
      - exists []. by rewrite ?app_nil_r.
      - by left. }
  destruct (yaml_Marshal _) as [e|data] eqn:EM; simpl.
  { rewrite syscall_eq. simpl.
    destruct (next_outcome _); simpl; intros [= <- <- <-]; simpl.
    all: repeat split; try done; try (by right);
      try (eexists; split; [rewrite <-?app_assoc; simpl; reflexivity|done]);
      intros path Hp; by rewrite lookup_insert_ne. }
  rewrite syscall_eq. simpl.
  destruct (next_outcome _) as [|e n]; simpl.
  2:{ rewrite syscall_eq. simpl.
      destruct (next_outcome _); simpl; intros [= <- <- <-]; simpl.
      all: repeat split; try done; try (by right);
        try (eexists; split; [rewrite <-?app_assoc; simpl; reflexivity|done]);
        intros path Hp; by rewrite !lookup_insert_ne. }
  rewrite syscall_eq. simpl.
  destruct (next_outcome _); simpl.
  all: rewrite syscall_eq; simpl.
  all: destruct (next_outcome _); simpl.
  all: rewrite ?lookup_insert_eq; simpl.
  all: intros [= <- <- <-]; simpl.
  all: repeat split; try done; try (by right);
        try (eexists; split; [rewrite <-?app_assoc; simpl; reflexivity|done]).
  all: try (intros path Hp; by rewrite !lookup_insert_ne).
  all: exists data; split; [done|]; by rewrite !delete_insert_eq.
Qed.

(** X1.  A flush fails in exactly four ways: the temporary file cannot be
    created (its first call), the snapshot cannot be marshalled, the write
    fails (its second call), or the rename fails (its fourth).  What
    [Close] returns, its third call, is dropped. *)
Lemma flush_fails_iff (c : Checkpoint) (w : World) :
  is_Some (flush c w).1.1 ↔
    outcome_at 0 w ≠ Succeeds ∨
    match yaml_Marshal (snapshot (clock w) (set_sort (sorted_names c) c)) with
    | inl _ => True
    | inr _ => outcome_at 1 w ≠ Succeeds ∨ outcome_at 3 w ≠ Succeeds
    end.
Proof.
  unfold flush, os_Create, file_Write, file_Close, os_Rename, time_Now, bind, ret,
    modify, syscall, outcome_at.
  simpl.
  destruct (script w) as [|o0 [|o1 [|o2 [|o3 rest]]]] eqn:Es; simpl.
  all: repeat match goal with o : Outcome |- _ => destruct o end; simpl.
  all: destruct (yaml_Marshal _) as [e'|data]; simpl.
  all: repeat (rewrite Es; simpl).
  all: rewrite ?lookup_insert_eq; simpl.
  all: split; [intros [? ?]; simplify_eq/=; auto|intros H; try (by eexists)].
  all: try (by right; right).
  all: try (by right; left).
  all: destruct H as [?|[?|?]]; done.
Qed.

(** ** [persist] *)

Lemma persist_clean (c : Checkpoint) (w : World) :
  numUpdates c = 0 → persist c w = (false, c, w).
Proof. intros H. unfold persist. by rewrite H. Qed.

Lemma persist_dirty (c : Checkpoint) (w : World) :
  numUpdates c ≠ 0 →
  persist c w =
  let '(err, c', w') := flush c w in
  match err with
  | Some e => (false, c', add_log (LogErr (Error e)) w')
  | None => (true, set_numUpdates 0 c',
             add_log (LogDebug "checkpoint" (numUpdates c')) w')
  end.
Proof.
  intros H. unfold persist. apply Z.eqb_neq in H. rewrite H.
  unfold bind. destruct (flush c w) as [[[e|] c'] w']; reflexivity.
Qed.

(** [persist] changes nothing of the checkpoint but the counter and the
    scratch slice, and it does not touch the clock. *)
Lemma persist_frame (c : Checkpoint) (w : World) ok c' w' :
  persist c w = (ok, c', w') →
  wg c' = wg c ∧ done c' = done c ∧ once c' = once c ∧ file c' = file c ∧
  maxUpdates c' = maxUpdates c ∧ flushInterval c' = flushInterval c ∧
  states c' = states c ∧ clock w' = clock w ∧
  numUpdates c' = (if ok then 0 else numUpdates c).
Proof.
  destruct (decide (numUpdates c = 0)) as [H0|H0].
  - rewrite persist_clean by done. by intros [= <- <- <-].
  - rewrite persist_dirty by done.
    destruct (flush c w) as [[err c1] w1] eqn:Ef.
    apply flush_spec in Ef as (Hclock & _ & _ & Hc1 & _).
    destruct err; intros [= <- <- <-]; simpl;
      by destruct Hc1 as [-> | ->].
Qed.

Lemma persist_attempts (c : Checkpoint) (w : World) :
  flush_attempts (trace (persist c w).2) =
  (flush_attempts (trace w) + (if (numUpdates c =? 0)%Z then 0 else 1))%nat.
Proof.
  destruct (Z.eqb_spec (numUpdates c) 0) as [H0|H0].
  - rewrite persist_clean by done. simpl. lia.
  - rewrite persist_dirty by done.
    destruct (flush c w) as [[err c1] w1] eqn:Ef.
    apply flush_spec in Ef as (_ & _ & (ops & Htr & Hops & _) & _).
    assert (flush_attempts (trace w1) = (flush_attempts (trace w) + 1)%nat) as H.
    { unfold flush_attempts. rewrite Htr, filter_app, filter_cons. simpl.
      rewrite Hops, length_app. reflexivity. }
    by destruct err.
Qed.

(** ** One iteration of the worker loop *)

Lemma run_iteration_due (k : Wake) (p : Proc) (w : World) :
  flush_due k (self p) = true →
  run_iteration k p w =
  let '(_, c', w1) := persist (received k (self p)) w in
  (true,
   {| self := c';
      flushTimer := {| deadline := clock w1 + flushInterval c'; armed := true |} |},
   add_trace (OpTimerReset (flushInterval c')) w1).
Proof.
  unfold run_iteration, run_select, flush_due, received, pending_with.
  destruct k as [|s|]; [done| |]; simpl.
  - intros H. rewrite Z.ltb_antisym, H. simpl. unfold bind.
    by destruct (persist _ w) as [[ok c'] w1].
  - intros _. unfold bind. by destruct (persist _ w) as [[ok c'] w1].
Qed.

Lemma run_iteration_idle (k : Wake) (p : Proc) (w : World) :
  k ≠ RecvDone →
  flush_due k (self p) = false →
  run_iteration k p w =
  (true, {| self := received k (self p); flushTimer := flushTimer p |}, w).
Proof.
  unfold run_iteration, run_select, flush_due, received, pending_with.
  destruct k as [|s|]; [done| |done]; simpl.
  intros _ H. by rewrite Z.ltb_antisym, H.
Qed.

Lemma run_iteration_done (p : Proc) (w : World) :
  run_iteration RecvDone p w =
  (negb (done (self p)), {| self := self p; flushTimer := flushTimer p |}, w).
Proof. unfold run_iteration, run_select. by destruct (done (self p)). Qed.

(** An iteration keeps the wiring of the checkpoint, stores at most the
    state it received, and leaves the loop only through [done]. *)
Lemma run_iteration_frame (k : Wake) (p : Proc) (w : World) again p' w' :
  run_iteration k p w = (again, p', w') →
  wg (self p') = wg (self p) ∧ done (self p') = done (self p) ∧
  once (self p') = once (self p) ∧ file (self p') = file (self p) ∧
  maxUpdates (self p') = maxUpdates (self p) ∧
  flushInterval (self p') = flushInterval (self p) ∧
  states (self p') = states (received k (self p)) ∧
  clock w' = clock w ∧
  again = match k with RecvDone => negb (done (self p)) | _ => true end.
Proof.
  assert (k = RecvDone ∨ k ≠ RecvDone) as [->|Hk] by (destruct k; auto).
  { rewrite run_iteration_done. by intros [= <- <- <-]. }
  destruct (flush_due k (self p)) eqn:Hdue.
  - rewrite run_iteration_due by done.
    destruct (persist _ w) as [[ok c'] w1] eqn:Ep.
    apply persist_frame in Ep as (? & ? & ? & ? & ? & ? & ? & ? & _).
    intros [= <- <- <-]; simpl. by destruct k.
  - rewrite run_iteration_idle by done.
    intros [= <- <- <-]; simpl. by destruct k.
Qed.

(** ** The loop under a schedule *)

Lemma run_loop_frame (evs : list Event) (p : Proc) (w : World) again p' w' :
  run_loop evs p w = (again, p', w') →
  wg (self p') = wg (self p) ∧ done (self p') = done (self p) ∧
  once (self p') = once (self p) ∧ file (self p') = file (self p) ∧
  maxUpdates (self p') = maxUpdates (self p) ∧
  flushInterval (self p') = flushInterval (self p) ∧
  states (self p') =
    foldl (λ m s, <[Name s := s]> m) (states (self p)) (served (done (self p)) evs).
Proof.
  revert p w. induction evs as [|[d|k] evs IH]; intros p w; simpl.
  - by intros [= <- <- <-].
  - unfold bind, modify. apply IH.
  - unfold bind. destruct (run_iteration k p w) as [[again1 p1] w1] eqn:E1.
    apply run_iteration_frame in E1
      as (Hwg & Hdone & Honce & Hfile & Hmax & Hint & Hst & _ & Hagain).
    destruct again1.
    + intros (? & ? & ? & ? & ? & ? & Hst')%IH.
      rewrite Hwg, Hdone, Honce, Hfile, Hmax, Hint in *.
      repeat split; try done.
      rewrite Hst', Hst. destruct k; simpl; [|done..].
      by destruct (done (self p)).
    + intros [= <- <- <-]. repeat split; try done.
      rewrite Hst. destruct k; try done. simpl.
      by destruct (done (self p)).
Qed.

(** Once [done] is closed, a schedule that ends with the worker picking
    it makes the worker leave the loop. *)
Lemma run_loop_closed (evs : list Event) (p : Proc) (w : World) :
  done (self p) = true →
  (run_loop (evs ++ [Select RecvDone]) p w).1.1 = false.
Proof.
  revert p w. induction evs as [|[d|k] evs IH]; intros p w Hd; simpl.
  - unfold bind. rewrite run_iteration_done, Hd. reflexivity.
  - unfold bind, modify. by apply IH.
  - unfold bind. destruct (run_iteration k p w) as [[again1 p1] w1] eqn:E1.
    destruct again1; [|done].
    apply run_iteration_frame in E1 as (_ & Hdone & _).
    apply IH. by rewrite Hdone.
Qed.

(** ** Loading *)

Lemma read_spec (c : Checkpoint) (w : World) :
  next_outcome w = Succeeds →
  read c w =
  (match fs w !! file c with
   | None => (None, None)
   | Some data =>
       match yaml_Unmarshal data zero_PersistedState with
       | inl e => (None, Some e)
       | inr ps => (Some ps, None)
       end
   end,
   set_script (tail (script w)) (add_trace (OpReadFile (file c)) w)).
Proof.
  intros Hw. unfold read, ioutil_ReadFile, bind, ret.
  rewrite syscall_eq, Hw. simpl.
  destruct (fs w !! file c) as [data|]; simpl; [|done].
  by destruct (yaml_Unmarshal data zero_PersistedState).
Qed.

Lemma read_failed (c : Checkpoint) (w : World) e n :
  next_outcome w = Fails e n →
  read c w =
  (None, if os_IsNotExist e then None else Some e,
   set_script (tail (script w)) (add_trace (OpReadFile (file c)) w)).
Proof.
  intros Hw. unfold read, ioutil_ReadFile, bind, ret.
  by rewrite syscall_eq, Hw.
Qed.

Lemma read_clock (c : Checkpoint) (w : World) : clock (read c w).2 = clock w.
Proof.
  unfold read, ioutil_ReadFile, bind, ret. rewrite syscall_eq.
  destruct (next_outcome w); simpl; [|done].
  destruct (fs w !! _); simpl; [|done].
  by destruct (yaml_Unmarshal _ _).
Qed.

Lemma read_by_file (c c' : Checkpoint) (w : World) :
  file c = file c' → read c w = read c' w.
Proof. intros H. unfold read. by rewrite H. Qed.

(** What [read] returns depends on the world through the target file and
    the outcome of the one call it makes. *)
Lemma read_same_file (c : Checkpoint) (wa wb : World) :
  fs wa !! file c = fs wb !! file c →
  next_outcome wa = next_outcome wb →
  (read c wa).1 = (read c wb).1.
Proof.
  intros Hfs Hnext. unfold read, ioutil_ReadFile, bind, ret.
  rewrite !syscall_eq, Hnext.
  destruct (next_outcome wb); simpl; [|done].
  rewrite Hfs. destruct (fs wb !! file c); simpl; [|done].
  by destruct (yaml_Unmarshal _ _).
Qed.

(** ** Failures of a flush *)

(** C1.  When a step of the flush fails, whichever it is, [persist]
    reports [false]; the target file holds what it held before, so the
    bootstrap reader finds in it what it would have found before; the
    counter of pending updates, the table and the path are as they were;
    the error is written to the log and returned to nobody.  Whatever
    calls [persist] next begins another flush, and the worker goes on
    taking updates: a state it receives is stored and the loop goes on. *)
Theorem failed_flush_keeps_last_snapshot (c : Checkpoint) (w : World) (e : error) :
  numUpdates c ≠ 0 →
  (flush c w).1.1 = Some e →
  let '(ok, c', w') := persist c w in
  ok = false ∧
  fs w' !! file c = fs w !! file c ∧
  (∀ wa wb, fs wa = fs w → fs wb = fs w' →
            next_outcome wa = next_outcome wb → (read c' wb).1 = (read c wa).1) ∧
  numUpdates c' = numUpdates c ∧ states c' = states c ∧ file c' = file c ∧
  logs w' = logs w ++ [LogErr (Error e)] ∧
  (∀ w2, ∃ ops,
     trace (persist c' w2).2 = trace w2 ++ OpCreate (file c +:+ ".new") :: ops) ∧
  (∀ s t w2,
     let '(again, p2, _) :=
       run_iteration (RecvSave s) {| self := c'; flushTimer := t |} w2 in
     again = true ∧ states (self p2) = <[Name s := s]> (states c)).
Proof.
  intros Hn He. rewrite persist_dirty by done.
  destruct (flush c w) as [[err c1] w1] eqn:Ef. simpl in He. subst err.
  apply flush_spec in Ef as (_ & Hlogs & _ & Hc1 & Hfs).
  assert (numUpdates c1 = numUpdates c ∧ states c1 = states c ∧ file c1 = file c)
    as (Hn1 & Hs1 & Hf1) by (by destruct Hc1 as [-> | ->]).
  assert (fs w1 !! file c = fs w !! file c) as Htarget.
  { apply Hfs. intros Heq. by apply (new_suffix_differs (file c)). }
  split_and!; try done.
  - intros wa wb Ha Hb Hnext.
    rewrite (read_by_file c1 c) by done.
    apply read_same_file; [|done]. simpl in Hb. by rewrite Ha, Hb.
  - simpl. by rewrite Hlogs.
  - intros w2. rewrite persist_dirty by congruence.
    destruct (flush c1 w2) as [[err2 c2] w3] eqn:Ef2.
    apply flush_spec in Ef2 as (_ & _ & (ops & Htr & _) & _).
    rewrite Hf1 in Htr. exists ops. by destruct err2.
  - intros s t w2.
    destruct (run_iteration _ _ w2) as [[again p2] w3] eqn:Ei.
    apply run_iteration_frame in Ei as (_ & _ & _ & _ & _ & _ & Hst & _ & ->).
    split; [done|]. by rewrite Hst, <-Hs1.
Qed.

(** ** Construction, step by step *)

Lemma initial_fields path m i :
  let c := initial path m i in
  wg c = 0%nat ∧ done c = false ∧ once c = false ∧ file c = path ∧
  numUpdates c = 0 ∧ maxUpdates c = Z.max 1 m ∧
  flushInterval c = Z.max time_Second i ∧ states c = ∅.
Proof.
  unfold initial, minimum_flush_interval, minimum_batch_size. simpl.
  destruct (Z.ltb_spec m 1); simpl;
    destruct (Z.ltb_spec i time_Second); simpl;
    repeat split; try done; lia.
Qed.

Lemma NewCheckpoint_eq file m i (w : World) :
  NewCheckpoint file m i w =
  let c := initial file m i in
  let '(ps, err, w1) := read c w in
  match err with
  | Some e => (None, Some e, w1)
  | None =>
      let c := match ps with
               | Some ps => foldl (λ c state, store state c) c (States ps)
               | None => c
               end in
      (Some {| self := set_wg (wg c + 1) c;
               flushTimer := {| deadline := clock w1 + flushInterval c;
                                armed := true |} |},
       None, w1)
  end.
Proof.
  unfold NewCheckpoint, bind, ret, time_NewTimer. fold (initial file m i).
  destruct (read (initial file m i) w) as [[ps [e|]] w1]; reflexivity.
Qed.

Lemma seeded_states (c : Checkpoint) (ps : PersistedState) name :
  states (foldl (λ c state, store state c) c (States ps)) !! name =
  match latest name (States ps) with
  | Some s => Some s
  | None => states c !! name
  end.
Proof. by rewrite states_foldl_store, lookup_foldl_insert. Qed.

(** ** Flush, then read *)


(** ** The order of a snapshot *)

(** C7.  The snapshot a flush hands to the YAML library, whose encoding
    ends up in the target file when the flush succeeds, lists its entries
    by name in ascending order, no name twice; this for any table in which
    every entry sits under its own name, which is how [NewCheckpoint] and
    the worker fill it ([keyed_NewCheckpoint], [keyed_run], [keyed_Shutdown]
    below). *)
Theorem persisted_snapshot_sorted (c c1 : Checkpoint) (w w1 : World) :
  keyed (states c) →
  flush c w = (None, c1, w1) →
  ∃ ps data,
    ps = snapshot (clock w) c1 ∧
    yaml_Marshal ps = inr data ∧
    fs w1 !! file c = Some data ∧
    Sorted String.le (Name <$> States ps) ∧
    NoDup (Name <$> States ps) ∧
    Name <$> States ps ≡ₚ (map_to_list (states c)).*1.
Proof.
  intros Hkeyed Hflush.
  apply flush_spec in Hflush as (_ & _ & _ & _ & -> & data & HM & Hfs).
  exists (snapshot (clock w) (set_sort (sorted_names c) c)), data.
  rewrite snapshot_names by done.
  split_and!; [done|done| | | |].
  - by rewrite Hfs, lookup_insert_eq.
  - apply sorted_names_Sorted.
  - apply sorted_names_NoDup.
  - apply sorted_names_perm.
Qed.

(** ** The counter under a run of the worker *)

Lemma count_pending_app n h1 h2 :
  count_pending n (h1 ++ h2) = count_pending (count_pending n h1) h2.
Proof. apply foldl_app. Qed.

Lemma numUpdates_iteration (k : Wake) (p : Proc) (w : World) :
  numUpdates (self (run_iteration k p w).1.2)
  = count_pending (numUpdates (self p)) (marks_of k p w).
Proof.
  assert (numUpdates (received k (self p))
          = count_pending (numUpdates (self p))
              match k with RecvSave _ => [Taken] | _ => [] end) as Hrecv
    by (by destruct k).
  unfold marks_of. rewrite count_pending_app, <-Hrecv.
  destruct (flush_due k (self p)) eqn:Hdue; simpl.
  - rewrite run_iteration_due by done.
    destruct (persist (received k (self p)) w) as [[ok c'] w1] eqn:Ep.
    apply persist_frame in Ep as (_ & _ & _ & _ & _ & _ & _ & _ & Hnum).
    simpl. rewrite Hnum. by destruct ok.
  - destruct k as [|s|]; [|by rewrite run_iteration_idle|done].
    by rewrite run_iteration_done.
Qed.

(** X16.  Under any schedule and whatever fails, [numUpdates] is the
    number of updates the worker took since [persist] last returned
    [true], counted as a Go [int] counts. *)
Lemma numUpdates_counts (evs : list Event) (p : Proc) (w : World) :
  numUpdates (self (run_loop evs p w).1.2)
  = count_pending (numUpdates (self p)) (history evs p w).
Proof.
  revert p w. induction evs as [|[d|k] evs IH]; intros p w; simpl; [done| |].
  - unfold bind, modify. apply IH.
  - unfold bind. pose proof (numUpdates_iteration k p w) as Hk.
    destruct (run_iteration k p w) as [[again p1] w1].
    rewrite count_pending_app, <-Hk. simpl.
    destruct again; [apply IH|done].
Qed.

(** ** The table under a run of the worker *)

Lemma run_exit_eq (p : Proc) (w : World) :
  run_exit p w =
  let '(_, c, w1) := persist (self p) w in
  ({| self := set_wg (wg c - 1) c;
      flushTimer := {| deadline := deadline (flushTimer p); armed := false |} |},
   add_trace OpTimerStop w1).
Proof.
  unfold run_exit, bind, Timer_Stop, ret.
  by destruct (persist (self p) w) as [[ok c] w1].
Qed.


Lemma keyed_run_loop (evs : list Event) (p : Proc) (w : World) again p' w' :
  run_loop evs p w = (again, p', w') →
  keyed (states (self p)) → keyed (states (self p')).
Proof.
  intros (_ & _ & _ & _ & _ & _ & ->)%run_loop_frame Hp.
  by apply keyed_foldl_insert.
Qed.

Lemma keyed_NewCheckpoint path m i (w : World) p w' :
  NewCheckpoint path m i w = (Some p, None, w') → keyed (states (self p)).
Proof.
  rewrite NewCheckpoint_eq. cbv zeta.
  destruct (initial_fields path m i) as (_ & _ & _ & _ & _ & _ & _ & Hst).
  destruct (read (initial path m i) w) as [[ps [e|]] w1]; [done|].
  intros [= <- <-]. cbn [self states set_wg].
  destruct ps as [ps|]; [|rewrite Hst; apply map_Forall_empty].
  rewrite states_foldl_store, Hst.
  apply keyed_foldl_insert, map_Forall_empty.
Qed.

Lemma keyed_run (evs : list Event) (p : Proc) (w : World) p' w' :
  run evs p w = (p', w') →
  keyed (states (self p)) → keyed (states (self p')).
Proof.
  unfold run. case_decide; [by intros [= <- <-]|].
  unfold bind. destruct (run_loop evs p w) as [[again p1] w1] eqn:Eloop.
  intros Hrun Hp. pose proof (keyed_run_loop _ _ _ _ _ _ Eloop Hp) as Hp1.
  destruct again; [by injection Hrun as <- <-|].
  rewrite run_exit_eq in Hrun.
  destruct (persist (self p1) w1) as [[ok c] w2] eqn:Ep.
  apply persist_frame in Ep as (_ & _ & _ & _ & _ & _ & Hst & _).
  injection Hrun as <- <-. simpl. by rewrite Hst.
Qed.

Lemma keyed_Shutdown (pending : list Event) (p : Proc) (w : World) p' w' :
  Shutdown pending p w = (p', w') →
  keyed (states (self p)) → keyed (states (self p')).
Proof.
  unfold Shutdown. destruct (once (self p)); [by intros [= <- <-]|].
  intros Hrun Hp. by apply keyed_run in Hrun.
Qed.

(** C3.  Let the worker run under any schedule.  For every name, the table
    [States] returns then holds the last state the worker received under
    that name, whole, and where it received none, what the table held
    before.  In particular an update for [name] that the worker received
    last is returned as recorded.  Every entry sits under its own name, so
    no name occurs twice among the entries. *)
Theorem last_write_wins (evs : list Event) (p : Proc) (w : World) (name : string) :
  keyed (states (self p)) →
  let '(_, p', _) := run_loop evs p w in
  let table := Checkpoint_States (self p') in
  table !! name =
    match latest name (served (done (self p)) evs) with
    | Some s => Some s
    | None => states (self p) !! name
    end ∧
  (∀ evs0 pos ts,
     done (self p) = false →
     evs = evs0 ++ [Select (RecvSave (Persist name pos ts))] →
     table !! name =
       Some {| Name := name; RecordNumber := pos; Timestamp := ts |}) ∧
  keyed table ∧
  NoDup (Name <$> (map_to_list table).*2).
Proof.
  intros Hkeyed.
  destruct (run_loop evs p w) as [[again p'] w'] eqn:Erun.
  pose proof (keyed_run_loop _ _ _ _ _ _ Erun Hkeyed) as Hkeyed'.
  apply run_loop_frame in Erun as (_ & _ & _ & _ & _ & _ & Hst).
  cbv zeta. rewrite Checkpoint_States_eq.
  assert (states (self p') !! name =
          match latest name (served (done (self p)) evs) with
          | Some s => Some s
          | None => states (self p) !! name
          end) as Hlook by (by rewrite Hst, lookup_foldl_insert).
  split_and!; [done| |done|].
  - intros evs0 pos ts Hd ->. rewrite Hlook, Hd.
    assert (∀ l, served false (l ++ [Select (RecvSave (Persist name pos ts))])
                 = served false l ++ [Persist name pos ts]) as ->.
    { induction l as [|[d|[|s|]] l IH]; simpl; by rewrite ?IH. }
    rewrite latest_app. simpl. by rewrite decide_True.
  - rewrite keyed_names by done. apply NoDup_fst_map_to_list.
Qed.

(** ** The trigger policy *)

(** C4.  One iteration of the loop, whatever woke it.  When the count of
    pending updates, the received one included, has reached [maxUpdates],
    or when it was the timer that fired, the iteration is the received
    update, then one call of [persist], then a reset of the timer to a
    full [flushInterval] from now, whatever [persist] returned; that call
    begins a flush unless nothing at all is pending, and it leaves the
    count at zero when it succeeded and as it was when it did not.
    Otherwise the iteration is the received update and nothing else: the
    world is as it was, no flush, and the timer keeps its deadline.  The
    loop goes on unless the closed [done] channel was picked. *)
Theorem flush_trigger_policy (k : Wake) (p : Proc) (w : World) :
  let c := received k (self p) in
  let '(again, p', w') := run_iteration k p w in
  again = match k with RecvDone => negb (done (self p)) | _ => true end ∧
  if flush_due k (self p)
  then
    let '(ok, c', w1) := persist c w in
    self p' = c' ∧
    numUpdates c' = (if ok then 0 else pending_with k (self p)) ∧
    w' = add_trace (OpTimerReset (flushInterval (self p))) w1 ∧
    flushTimer p' =
      {| deadline := clock w + flushInterval (self p); armed := true |} ∧
    flush_attempts (trace w') =
      (flush_attempts (trace w)
       + (if (pending_with k (self p) =? 0)%Z then 0 else 1))%nat
  else
    self p' = c ∧ w' = w ∧ flushTimer p' = flushTimer p.
Proof.
  cbv zeta.
  assert (numUpdates (received k (self p)) = pending_with k (self p)) as Hpend
    by (by destruct k).
  destruct (flush_due k (self p)) eqn:Hdue.
  - rewrite run_iteration_due by done.
    pose proof (persist_attempts (received k (self p)) w) as Hatt.
    destruct (persist (received k (self p)) w) as [[ok c'] w1] eqn:Ep.
    apply persist_frame in Ep as (_ & _ & _ & _ & _ & Hint & _ & Hclock & Hnum).
    rewrite Hint, Hclock, Hnum, Hpend in *.
    replace (flushInterval (received k (self p))) with (flushInterval (self p))
      by (by destruct k).
    split_and!; try done; [by destruct k|].
    simpl in *. unfold flush_attempts in *.
    rewrite filter_app, length_app. simpl. lia.
  - destruct k as [|s|]; [|by rewrite run_iteration_idle|done].
    by rewrite run_iteration_done.
Qed.

(** ** A trigger with nothing pending *)

(** C8.  With no update pending, [persist] returns at once: checkpoint and
    world are what they were, so no call went to storage.  The iteration
    the timer wakes then leaves every file and the record of storage calls
    unchanged (it resets the timer, nothing more), and so does the
    worker's way out of the loop. *)
Theorem clean_persist_touches_nothing (p : Proc) (w : World) :
  numUpdates (self p) = 0 →
  persist (self p) w = (false, self p, w) ∧
  (let '(_, p', w') := run_iteration RecvTimer p w in
   self p' = self p ∧ fs w' = fs w ∧
   storage_ops (trace w') = storage_ops (trace w) ∧
   trace w' = trace w ++ [OpTimerReset (flushInterval (self p))]) ∧
  (let '(p', w') := run_exit p w in
   fs w' = fs w ∧ storage_ops (trace w') = storage_ops (trace w)).
Proof.
  intros H0. split_and!.
  - by apply persist_clean.
  - rewrite run_iteration_due by done. simpl. rewrite persist_clean by done.
    simpl. by rewrite storage_ops_timer.
  - unfold run_exit, bind, Timer_Stop, ret. rewrite persist_clean by done.
    simpl. by rewrite storage_ops_timer.
Qed.

(** ** Shutdown *)

(** C5.  The first [Shutdown] of a live checkpoint closes [done]; the
    worker serves what its [select] still picks, leaves the loop, calls
    [persist] once more, which begins a flush exactly when updates are
    pending, and is gone when [Shutdown] returns, its timer stopped.  A
    second [Shutdown], whatever may be pending then, returns the
    checkpoint and the world untouched: no further flush. *)
Theorem Shutdown_idempotent (pending pending' : list Event) (p : Proc) (w : World) :
  once (self p) = false →
  wg (self p) = 1%nat →
  let closing := {| self := set_done true (set_once true (self p));
                    flushTimer := flushTimer p |} in
  let '(again, p0, w0) := run_loop (pending ++ [Select RecvDone]) closing w in
  let '(p1, w1) := Shutdown pending p w in
  again = false ∧
  run_exit p0 w0 = (p1, w1) ∧
  flush_attempts (trace w1) =
    (flush_attempts (trace w0) + (if (numUpdates (self p0) =? 0)%Z then 0 else 1))%nat ∧
  wg (self p1) = 0%nat ∧ once (self p1) = true ∧ done (self p1) = true ∧
  armed (flushTimer p1) = false ∧
  Shutdown pending' p1 w1 = (p1, w1).
Proof.
  intros Honce Hwg closing.
  pose proof (run_loop_closed pending closing w eq_refl) as Hleft.
  unfold Shutdown. rewrite Honce. cbn [self flushTimer]. fold closing.
  unfold run. rewrite decide_False by (simpl; lia). unfold bind.
  destruct (run_loop (pending ++ [Select RecvDone]) closing w)
    as [[again p0] w0] eqn:Eloop.
  simpl in Hleft. subst again.
  apply run_loop_frame in Eloop as (Hwg0 & Hdone0 & Honce0 & _).
  simpl in Hwg0, Hdone0, Honce0.
  pose proof (persist_attempts (self p0) w0) as Hatt.
  rewrite run_exit_eq.
  destruct (persist (self p0) w0) as [[ok c] w1] eqn:Ep.
  apply persist_frame in Ep as (Hwg1 & Hdone1 & Honce1 & _).
  simpl in Hatt. simpl.
  split_and!; try done.
  - unfold flush_attempts in *. rewrite filter_app, length_app. simpl. lia.
  - lia.
  - congruence.
  - congruence.
  - replace (once c) with true by congruence. done.
Qed.

(** ** Construction *)

(** C6.  [NewCheckpoint] on a world that lets the file be read.  No file
    at the path: a checkpoint with an empty table.  A file the YAML
    library rejects: that error and no checkpoint.  A file it accepts: a
    checkpoint whose table has an entry for the name of every entry of the
    snapshot, namely the last entry of the snapshot with that name, and
    nothing else; a snapshot without repeated names is in the table entry
    for entry. *)
Theorem NewCheckpoint_loads (path : string) (m : Z) (i : Duration) (w : World) :
  next_outcome w = Succeeds →
  match fs w !! path with
  | None =>
      ∃ p, (NewCheckpoint path m i w).1 = (Some p, None) ∧
           Checkpoint_States (self p) = ∅
  | Some data =>
      match yaml_Unmarshal data zero_PersistedState with
      | inl e => (NewCheckpoint path m i w).1 = (None, Some e)
      | inr ps =>
          ∃ p, (NewCheckpoint path m i w).1 = (Some p, None) ∧
               (∀ name, Checkpoint_States (self p) !! name = latest name (States ps)) ∧
               (∀ s, s ∈ States ps → is_Some (Checkpoint_States (self p) !! Name s)) ∧
               (NoDup (Name <$> States ps) →
                ∀ s, s ∈ States ps → Checkpoint_States (self p) !! Name s = Some s)
      end
  end.
Proof.
  intros Hnext. rewrite NewCheckpoint_eq. cbv zeta.
  destruct (initial_fields path m i) as (_ & _ & _ & Hf & _ & _ & _ & Hst).
  rewrite read_spec, Hf by done.
  destruct (fs w !! path) as [data|].
  2:{ eexists. split; [reflexivity|]. by rewrite Checkpoint_States_eq. }
  destruct (yaml_Unmarshal data zero_PersistedState) as [e|ps]; [done|].
  eexists. split; [reflexivity|]. rewrite Checkpoint_States_eq.
  cbn [self states set_wg].
  assert (∀ name, states (foldl (λ c state, store state c) (initial path m i)
                                (States ps)) !! name
                  = latest name (States ps)) as Hlook.
  { intros name. rewrite seeded_states, Hst, lookup_empty.
    by destruct (latest name (States ps)). }
  split_and!; [done| |].
  - intros s Hs. rewrite Hlook.
    destruct (latest (Name s) (States ps)) eqn:E; [done|].
    exfalso. by eapply latest_None.
  - intros Hnd s Hs. rewrite Hlook.
    destruct (latest (Name s) (States ps)) as [s'|] eqn:E.
    + apply latest_elem in E as [Hs' Hn]. f_equal.
      clear Hlook. induction (States ps) as [|x l IH]; [by apply elem_of_nil in Hs|].
      rewrite fmap_cons in Hnd. apply NoDup_cons in Hnd as [Hx Hnd].
      apply elem_of_cons in Hs as [->|Hs], Hs' as [->|Hs']; [done| | |by apply IH].
      * exfalso. apply Hx. rewrite <-Hn. by apply list_elem_of_fmap_2.
      * exfalso. apply Hx. rewrite Hn. by apply list_elem_of_fmap_2.
    + exfalso. by eapply latest_None.
Qed.

Lemma NewCheckpoint_after_read (path : string) (m : Z) (i : Duration) (w : World) ps w1 :
  read (initial path m i) w = (ps, None, w1) →
  ∃ p, (NewCheckpoint path m i w).1 = (Some p, None) ∧
       maxUpdates (self p) = Z.max 1 m ∧
       flushInterval (self p) = Z.max time_Second i ∧
       1 ≤ maxUpdates (self p) ∧
       time_Second ≤ flushInterval (self p) ∧
       deadline (flushTimer p) = clock w + flushInterval (self p).
Proof.
  intros Er. rewrite NewCheckpoint_eq. cbv zeta.
  destruct (initial_fields path m i) as (_ & _ & _ & _ & _ & Hmax & Hint & _).
  assert (clock w1 = clock w) as Hclock.
  { pose proof (read_clock (initial path m i) w) as H. by rewrite Er in H. }
  rewrite Er. eexists. split; [reflexivity|].
  cbn [self flushTimer deadline].
  set (c := match ps with Some ps0 => _ | None => _ end).
  assert (maxUpdates c = maxUpdates (initial path m i) ∧
          flushInterval c = flushInterval (initial path m i)) as [Hm Hi].
  { subst c. destruct ps as [ps|]; [|done].
    by destruct (foldl_store_frame (States ps) (initial path m i))
      as (_ & _ & _ & _ & _ & ? & ? & _). }
  cbn [maxUpdates flushInterval set_wg]. rewrite Hm, Hi, Hmax, Hint, Hclock.
  unfold time_Second. split_and!; try done; lia.
Qed.

(** C9.  Whatever [maxUpdates] and [interval] are passed, whether
    [NewCheckpoint] fails, and with which error, does not depend on them:
    it fails when the file cannot be read for another reason than that it
    does not exist, or when the YAML library rejects its contents, and
    never otherwise.  When it does not fail, the checkpoint it returns has
    [maxUpdates] raised to 1 and [flushInterval] raised to one second
    where they were smaller, and otherwise as passed, and the worker's
    first timer runs for that interval. *)
Theorem NewCheckpoint_clamps (path : string) (m : Z) (i : Duration) (w : World) :
  let outcome := (NewCheckpoint path m i w).1 in
  let clamped :=
    ∃ p, outcome = (Some p, None) ∧
         maxUpdates (self p) = Z.max 1 m ∧
         flushInterval (self p) = Z.max time_Second i ∧
         1 ≤ maxUpdates (self p) ∧
         time_Second ≤ flushInterval (self p) ∧
         deadline (flushTimer p) = clock w + flushInterval (self p) in
  (∀ m' i', (NewCheckpoint path m' i' w).1.2 = outcome.2) ∧
  match next_outcome w with
  | Fails e _ => if os_IsNotExist e then clamped else outcome = (None, Some e)
  | Succeeds =>
      match fs w !! path with
      | None => clamped
      | Some data =>
          match yaml_Unmarshal data zero_PersistedState with
          | inl e => outcome = (None, Some e)
          | inr _ => clamped
          end
      end
  end.
Proof.
  cbv zeta.
  assert (∀ m' i', read (initial path m' i') w = read (initial path m i) w) as Hread.
  { intros m' i'. apply read_by_file.
    destruct (initial_fields path m i) as (_ & _ & _ & -> & _).
    by destruct (initial_fields path m' i') as (_ & _ & _ & -> & _). }
  destruct (initial_fields path m i) as (_ & _ & _ & Hf & _).
  split.
  - intros m' i'. rewrite !NewCheckpoint_eq. cbv zeta. rewrite Hread.
    by destruct (read (initial path m i) w) as [[ps [e|]] w1].
  - destruct (next_outcome w) as [|e n] eqn:Hnext.
    + pose proof (read_spec (initial path m i) w Hnext) as Er. rewrite Hf in Er.
      destruct (fs w !! path) as [data|].
      * destruct (yaml_Unmarshal data zero_PersistedState) as [e|ps].
        -- rewrite NewCheckpoint_eq. cbv zeta. by rewrite Er.
        -- by apply (NewCheckpoint_after_read _ _ _ _ _ _ Er).
      * by apply (NewCheckpoint_after_read _ _ _ _ _ _ Er).
    + pose proof (read_failed (initial path m i) w e n Hnext) as Er.
      destruct (os_IsNotExist e).
      * by apply (NewCheckpoint_after_read _ _ _ _ _ _ Er).
      * rewrite NewCheckpoint_eq. cbv zeta. by rewrite Er.
Qed.

(** C10.  Let the YAML library, given empty input, report no error and
    leave the value it was to fill as it was.  Then [NewCheckpoint] on a
    path that holds a file of length zero returns a checkpoint with an
    empty table: the same result, checkpoint and error, as on the world in
    which that file does not exist. *)
Theorem empty_file_opens_empty (path : string) (m : Z) (i : Duration) (w : World) :
  next_outcome w = Succeeds →
  fs w !! path = Some "" →
  yaml_Unmarshal "" zero_PersistedState = inr zero_PersistedState →
  ∃ p, (NewCheckpoint path m i w).1 = (Some p, None) ∧
       Checkpoint_States (self p) = ∅ ∧
       (NewCheckpoint path m i (set_fs (delete path) w)).1 = (Some p, None).
Proof.
  intros Hnext Hfile Hyaml. rewrite !NewCheckpoint_eq. cbv zeta.
  destruct (initial_fields path m i) as (_ & _ & _ & Hf & _ & _ & _ & Hst).
  rewrite !read_spec, Hf by done. simpl.
  rewrite Hfile, Hyaml, lookup_delete_eq. simpl.
  eexists. split_and!; [reflexivity| |reflexivity].
  by rewrite Checkpoint_States_eq.
Qed.

(** ** More about [flush] *)

Local Ltac flush_branch := solve [repeat first [done | split | eexists]].

(** The five ways through [flush], with the files and the calls each one
    leaves. *)
Lemma flush_cases (c : Checkpoint) (w : World) :
  let tmp := file c +:+ ".new" in
  let ps := snapshot (clock w) (set_sort (sorted_names c) c) in
  let r := flush c w in
  (∃ e n, outcome_at 0 w = Fails e n ∧ is_Some r.1.1 ∧ fs r.2 = fs w ∧
          trace r.2 = trace w ++ [OpCreate tmp]) ∨
  (outcome_at 0 w = Succeeds ∧
   ∃ e, yaml_Marshal ps = inl e ∧ is_Some r.1.1 ∧
        fs r.2 = <[tmp := ""]> (fs w) ∧
        trace r.2 = trace w ++ [OpCreate tmp; OpClose tmp]) ∨
  (outcome_at 0 w = Succeeds ∧
   ∃ data, yaml_Marshal ps = inr data ∧
     ((∃ e n, outcome_at 1 w = Fails e n ∧ is_Some r.1.1 ∧
              fs r.2 = <[tmp := String.substring 0 n data]> (fs w) ∧
              trace r.2 = trace w ++ [OpCreate tmp; OpWrite tmp data; OpClose tmp]) ∨
      (outcome_at 1 w = Succeeds ∧
       trace r.2 = trace w ++ [OpCreate tmp; OpWrite tmp data; OpClose tmp;
                               OpRename tmp (file c)] ∧
       ((∃ e n, outcome_at 3 w = Fails e n ∧ r.1.1 = Some e ∧
                fs r.2 = <[tmp := data]> (fs w)) ∨
        (outcome_at 3 w = Succeeds ∧ r.1.1 = None ∧
         fs r.2 = <[file c := data]> (delete tmp (fs w))))))).
Proof.
  unfold flush, os_Create, file_Write, file_Close, os_Rename, time_Now, bind, ret,
    modify, syscall, outcome_at.
  simpl.
  destruct (script w) as [|o0 [|o1 [|o2 [|o3 rest]]]] eqn:Es; simpl.
  all: repeat match goal with o : Outcome |- _ => destruct o end; simpl.
  all: destruct (yaml_Marshal _) as [e'|data]; simpl.
  all: repeat (rewrite Es; simpl).
  all: rewrite ?lookup_insert_eq; simpl.
  all: rewrite <-?app_assoc; simpl.
  all: rewrite ?insert_insert_eq, ?delete_insert_eq.
  all: first
    [ left; flush_branch
    | right; left; flush_branch
    | right; right; split; [done|]; eexists; split; [done|];
      first
        [ left; flush_branch
        | right; split; [done|]; split; [done|];
          first [left; flush_branch | right; flush_branch] ] ].
Qed.

Lemma substring_all (s : string) : String.substring 0 (String.length s) s = s.
Proof. induction s as [|a s IH]; simpl; [done|]. by rewrite IH. Qed.

(** X2.  A flush, whether it fails or not, leaves every path other than
    the target and its [.new] sibling as it was.  After a flush that
    succeeded the sibling does not exist and the target holds what the
    YAML library made of the snapshot, whatever either file held before. *)
Theorem flush_touches_two_paths (c : Checkpoint) (w : World) :
  let '(err, _, w') := flush c w in
  (∀ path, path ≠ file c → path ≠ file c +:+ ".new" →
           fs w' !! path = fs w !! path) ∧
  (err = None →
   fs w' !! (file c +:+ ".new") = None ∧
   ∃ data,
     yaml_Marshal (snapshot (clock w) (set_sort (sorted_names c) c)) = inr data ∧
     fs w' !! file c = Some data).
Proof.
  destruct (flush c w) as [[err c'] w'] eqn:Ef.
  apply flush_spec in Ef as (_ & _ & _ & _ & Hfs).
  destruct err as [e|].
  - split; [|done]. intros path _ Hp. by apply Hfs.
  - destruct Hfs as (_ & data & HM & ->). split_and!.
    + intros path Hp1 Hp2. by rewrite lookup_insert_ne, lookup_delete_ne.
    + intros _. split.
      * rewrite lookup_insert_ne by (symmetry; apply new_suffix_differs).
        apply lookup_delete_eq.
      * exists data. by rewrite lookup_insert_eq.
Qed.

(** X3.  A flush that created its temporary file and then failed does not
    remove it: the file stays, empty when the snapshot could not be
    marshalled, and otherwise holding the part of the data that was
    written, all of it when it was the rename that failed. *)
Theorem failed_flush_leaves_temp_file (c : Checkpoint) (w : World) :
  outcome_at 0 w = Succeeds →
  is_Some (flush c w).1.1 →
  ∃ content,
    fs (flush c w).2 !! (file c +:+ ".new") = Some content ∧
    match yaml_Marshal (snapshot (clock w) (set_sort (sorted_names c) c)) with
    | inl _ => content = ""
    | inr data =>
        (∃ n, content = String.substring 0 n data) ∧
        (outcome_at 1 w = Succeeds → content = data)
    end.
Proof.
  intros Hcreate Hfail.
  destruct (flush_cases c w)
    as [(e & n & H0 & _)
       |[(_ & e & HM & _ & Hfs & _)
        |(_ & data & HM & [(e & n & H1 & _ & Hfs & _)
                          |(H1 & _ & [(e & n & _ & _ & Hfs)|(_ & Hok & _)])])]].
  - congruence.
  - rewrite HM, Hfs, lookup_insert_eq. by eexists.
  - rewrite HM, Hfs, lookup_insert_eq. eexists. split; [done|].
    split; [by eexists|congruence].
  - rewrite HM, Hfs, lookup_insert_eq. eexists. split; [done|].
    split; [|done]. exists (String.length data). by rewrite substring_all.
  - rewrite Hok in Hfail. by destruct Hfail.
Qed.

Local Ltac names_temp :=
  first [ by left | by right; left; eexists
        | by right; right; left | by right; right; right ].

(** X4.  The calls of a flush all name the temporary file; the target is
    named by the rename alone.  And the rename is issued only after the
    snapshot was marshalled and written in full: the calls are then
    create, write of all the data, close, rename, in this order. *)
Theorem flush_protocol (c : Checkpoint) (w : World) :
  let tmp := file c +:+ ".new" in
  ∃ ops,
    trace (flush c w).2 = trace w ++ ops ∧
    Forall (λ o, o = OpCreate tmp ∨ (∃ data, o = OpWrite tmp data) ∨
                 o = OpClose tmp ∨ o = OpRename tmp (file c)) ops ∧
    ((∃ a b, OpRename a b ∈ ops) →
     ∃ data,
       yaml_Marshal (snapshot (clock w) (set_sort (sorted_names c) c)) = inr data ∧
       outcome_at 1 w = Succeeds ∧
       ops = [OpCreate tmp; OpWrite tmp data; OpClose tmp; OpRename tmp (file c)]) ∧
    ((flush c w).1.1 = None → OpRename tmp (file c) ∈ ops).
Proof.
  intros tmp.
  destruct (flush_cases c w)
    as [(e & n & _ & Hfail & _ & Htr)
       |[(_ & e & _ & Hfail & _ & Htr)
        |(_ & data & HM & [(e & n & _ & Hfail & _ & Htr)
                          |(H1 & Htr & Hlast)])]].
  1-3: eexists; split; [exact Htr|]; split_and!;
    [ repeat (apply Forall_cons; split; [names_temp|]); apply Forall_nil_2
    | intros (a & b & Hin);
      repeat (apply elem_of_cons in Hin as [Hin|Hin]; [discriminate|]);
      by apply elem_of_nil in Hin
    | intros Hok; rewrite Hok in Hfail; by destruct Hfail ].
  eexists. split; [exact Htr|]. split_and!.
  - repeat (apply Forall_cons; split; [names_temp|]). apply Forall_nil_2.
  - intros _. by exists data.
  - intros _. rewrite !elem_of_cons. do 3 right. by left.
Qed.

(** ** More about the worker *)

Lemma run_frame (evs : list Event) (p : Proc) (w : World) :
  let p' := (run evs p w).1 in
  file (self p') = file (self p) ∧
  maxUpdates (self p') = maxUpdates (self p) ∧
  flushInterval (self p') = flushInterval (self p) ∧
  done (self p') = done (self p) ∧ once (self p') = once (self p) ∧
  states (self p') =
    if decide (wg (self p) = 0%nat) then states (self p)
    else foldl (λ m s, <[Name s := s]> m) (states (self p))
               (served (done (self p)) evs).
Proof.
  unfold run. case_decide; [done|]. unfold bind.
  destruct (run_loop evs p w) as [[again p1] w1] eqn:Eloop.
  apply run_loop_frame in Eloop as (_ & ? & ? & ? & ? & ? & Hst).
  destruct again; [done|].
  rewrite run_exit_eq.
  destruct (persist (self p1) w1) as [[ok c] w2] eqn:Ep.
  apply persist_frame in Ep as (_ & ? & ? & ? & ? & ? & Hst' & _).
  simpl. split_and!; congruence.
Qed.

Lemma Shutdown_frame (pending : list Event) (p : Proc) (w : World) :
  let p' := (Shutdown pending p w).1 in
  file (self p') = file (self p) ∧
  maxUpdates (self p') = maxUpdates (self p) ∧
  flushInterval (self p') = flushInterval (self p) ∧
  dom (states (self p)) ⊆ dom (states (self p')).
Proof.
  unfold Shutdown. destruct (once (self p)) eqn:Honce; [done|].
  cbn [self flushTimer].
  match goal with |- context [run ?evs ?q w] =>
    destruct (run_frame evs q w) as (Hf & Hm & Hi & _ & _ & Hst) end.
  cbv zeta. simpl in Hf, Hm, Hi, Hst. split_and!; [done..|]. rewrite Hst.
  case_decide; [done|].
  generalize (served true (pending ++ [Select RecvDone])), (states (self p)).
  intros l. induction l as [|s l IH]; intros m; simpl; [done|].
  etrans; [|apply IH]. rewrite dom_insert. set_solver.
Qed.

(** X5.  The worker never changes the path, the threshold or the interval
    it was constructed with, under any schedule and whatever fails, and
    neither does [Shutdown]. *)
Theorem worker_keeps_configuration (evs : list Event) (p : Proc) (w : World) :
  (let p' := (run evs p w).1 in
   file (self p') = file (self p) ∧
   maxUpdates (self p') = maxUpdates (self p) ∧
   flushInterval (self p') = flushInterval (self p)) ∧
  (let p' := (Shutdown evs p w).1 in
   file (self p') = file (self p) ∧
   maxUpdates (self p') = maxUpdates (self p) ∧
   flushInterval (self p') = flushInterval (self p)).
Proof.
  split.
  - by destruct (run_frame evs p w) as (? & ? & ? & _).
  - by destruct (Shutdown_frame evs p w) as (? & ? & ? & _).
Qed.

(** X6.  No name ever leaves the table: every name the table holds is
    still in it after any run of the worker and after [Shutdown]. *)
Theorem names_are_never_removed (evs : list Event) (p : Proc) (w : World) :
  dom (states (self p)) ⊆ dom (states (self (run evs p w).1)) ∧
  dom (states (self p)) ⊆ dom (states (self (Shutdown evs p w).1)).
Proof.
  split; [|by destruct (Shutdown_frame evs p w) as (_ & _ & _ & ?)].
  destruct (run_frame evs p w) as (_ & _ & _ & _ & _ & ->).
  case_decide; [done|].
  generalize (served (done (self p)) evs), (states (self p)).
  intros l. induction l as [|s l IH]; intros m; simpl; [done|].
  etrans; [|apply IH]. rewrite dom_insert. set_solver.
Qed.

(** X7.  As long as [done] is not closed the worker does not leave its
    loop, whatever it is woken by: it is still running afterwards, its
    wait-group count as before and [done] still open. *)
Theorem worker_stays_until_done (evs : list Event) (p : Proc) (w : World) :
  done (self p) = false →
  (run_loop evs p w).1.1 = true ∧
  wg (self (run evs p w).1) = wg (self p) ∧
  done (self (run evs p w).1) = false.
Proof.
  intros Hd.
  assert ((run_loop evs p w).1.1 = true) as Hloop.
  { revert p w Hd. induction evs as [|[d|k] evs IH]; intros p w Hd; simpl; [done| |].
    - unfold bind, modify. by apply IH.
    - unfold bind. destruct (run_iteration k p w) as [[again p1] w1] eqn:E1.
      apply run_iteration_frame in E1 as (_ & Hd1 & _ & _ & _ & _ & _ & _ & ->).
      assert (match k with RecvDone => negb (done (self p)) | _ => true end = true)
        as -> by (rewrite Hd; by destruct k).
      apply IH. congruence. }
  split; [done|].
  unfold run. case_decide; [done|]. unfold bind.
  destruct (run_loop evs p w) as [[again p1] w1] eqn:Eloop.
  simpl in Hloop. subst again.
  apply run_loop_frame in Eloop as (? & ? & _). simpl. split; congruence.
Qed.

(** X8.  Updates that keep the count below the threshold cost no call at
    all: the worker stores them and counts them, and the world, files and
    timer included, is what it was. *)
Theorem below_threshold_no_io (saves : list EventLogState) (p : Proc) (w : World) :
  0 ≤ numUpdates (self p) →
  numUpdates (self p) + Z.of_nat (length saves) < maxUpdates (self p) →
  maxUpdates (self p) ≤ 2 ^ 63 - 1 →
  let '(again, p', w') := run_loop ((λ s, Select (RecvSave s)) <$> saves) p w in
  again = true ∧ w' = w ∧ flushTimer p' = flushTimer p ∧
  numUpdates (self p') = numUpdates (self p) + Z.of_nat (length saves) ∧
  states (self p') = foldl (λ m s, <[Name s := s]> m) (states (self p)) saves.
Proof.
  revert p. induction saves as [|s saves IH]; intros p H0 Hlt Hmax.
  { simpl. split_and!; try done. lia. }
  rewrite fmap_cons. cbn [run_loop]. unfold bind.
  assert (int_incr (numUpdates (self p)) = numUpdates (self p) + 1) as Hincr
    by (apply int_incr_small; simpl in Hlt; lia).
  rewrite run_iteration_idle; [|done|].
  2:{ simpl. rewrite Hincr. apply Z.leb_gt. simpl in Hlt. lia. }
  set (q := {| self := received (RecvSave s) (self p);
               flushTimer := flushTimer p |}).
  assert (numUpdates (self q) = numUpdates (self p) + 1) as Hq by (simpl; done).
  specialize (IH q). rewrite Hq in IH.
  destruct (run_loop _ q w) as [[again p'] w'].
  destruct IH as (? & ? & ? & Hn & Hst); [lia|simpl in *; lia|done|].
  split_and!; try done. rewrite Hn. simpl length. lia.
Qed.

(** ** More about construction *)

Lemma read_world (c : Checkpoint) (w : World) :
  (read c w).2 = set_script (tail (script w)) (add_trace (OpReadFile (file c)) w).
Proof.
  unfold read, ioutil_ReadFile, bind, ret. rewrite syscall_eq.
  destruct (next_outcome w); simpl; [|done].
  destruct (fs w !! _); simpl; [|done].
  by destruct (yaml_Unmarshal _ _).
Qed.

(** X9.  [NewCheckpoint] makes one call, the read of the file at its path,
    and writes nothing: files, clock and log are as before, also when it
    fails. *)
Theorem NewCheckpoint_only_reads (path : string) (m : Z) (i : Duration) (w : World) :
  let w' := (NewCheckpoint path m i w).2 in
  fs w' = fs w ∧ trace w' = trace w ++ [OpReadFile path] ∧
  clock w' = clock w ∧ logs w' = logs w.
Proof.
  rewrite NewCheckpoint_eq. cbv zeta.
  destruct (initial_fields path m i) as (_ & _ & _ & Hf & _).
  pose proof (read_world (initial path m i) w) as Hw. rewrite Hf in Hw.
  destruct (read (initial path m i) w) as [[ps [e|]] w1]; simpl in *; by subst w1.
Qed.

(** X10.  When the read of the file fails, [NewCheckpoint] looks at the
    error: one that [os.IsNotExist] accepts gives a checkpoint with an
    empty table, any other is returned and no checkpoint is made. *)
Theorem NewCheckpoint_read_error (path : string) (m : Z) (i : Duration) (w : World) e n :
  next_outcome w = Fails e n →
  if os_IsNotExist e
  then ∃ p, (NewCheckpoint path m i w).1 = (Some p, None) ∧
            Checkpoint_States (self p) = ∅ ∧ numUpdates (self p) = 0
  else (NewCheckpoint path m i w).1 = (None, Some e).
Proof.
  intros Hw. rewrite NewCheckpoint_eq. cbv zeta.
  destruct (initial_fields path m i) as (_ & _ & _ & _ & Hn & _ & _ & Hst).
  rewrite (read_failed _ _ _ _ Hw).
  destruct (os_IsNotExist e); [|done].
  eexists. split_and!; [reflexivity| |done].
  by rewrite Checkpoint_States_eq.
Qed.

(** X11.  From construction on, through any run of the worker and through
    [Shutdown], every entry of the table sits under its own name. *)
Theorem table_stays_keyed (path : string) (m : Z) (i : Duration)
    (evs pending : list Event) (w : World) :
  match NewCheckpoint path m i w with
  | (Some p, _, w1) =>
      let '(p2, w2) := run evs p w1 in
      let '(p3, _) := Shutdown pending p2 w2 in
      keyed (Checkpoint_States (self p)) ∧
      keyed (Checkpoint_States (self p2)) ∧
      keyed (Checkpoint_States (self p3))
  | _ => True
  end.
Proof.
  destruct (NewCheckpoint path m i w) as [[[p|] err] w1] eqn:Enew; [|done].
  assert (keyed (states (self p))) as Hp.
  { revert Enew. rewrite NewCheckpoint_eq. cbv zeta.
    destruct (initial_fields path m i) as (_ & _ & _ & _ & _ & _ & _ & Hst).
    destruct (read (initial path m i) w) as [[ps [e|]] w0]; [done|].
    intros [= <- _ _]. cbn [self states set_wg].
    destruct ps as [ps|]; [|rewrite Hst; apply map_Forall_empty].
    rewrite states_foldl_store, Hst.
    apply keyed_foldl_insert, map_Forall_empty. }
  destruct (run evs p w1) as [p2 w2] eqn:Erun.
  destruct (Shutdown pending p2 w2) as [p3 w3] eqn:Eshut.
  rewrite !Checkpoint_States_eq.
  pose proof (keyed_run _ _ _ _ _ Erun Hp) as Hp2.
  pose proof (keyed_Shutdown _ _ _ _ _ Eshut Hp2) as Hp3.
  done.
Qed.

(** ** The counter and the disk *)

Lemma on_disk_same (path : string) (w w' : World) :
  fs w' !! path = fs w !! path → on_disk path w' = on_disk path w.
Proof. intros H. unfold on_disk. by rewrite H. Qed.

(** A call of [persist] that returns [true] leaves the table on disk; one
    that returns [false] leaves the target file alone. *)
Lemma persist_on_disk (c : Checkpoint) (w : World) ok c' w' :
  persist c w = (ok, c', w') →
  keyed (states c) →
  Forall round_trips (due_snapshot c w) →
  if ok then on_disk (file c) w' = Some (states c)
  else fs w' !! file c = fs w !! file c.
Proof.
  intros Hp Hkeyed Hrt. unfold due_snapshot in Hrt.
  destruct (Z.eqb_spec (numUpdates c) 0) as [H0|H0].
  { rewrite persist_clean in Hp by done. by injection Hp as <- <- <-. }
  rewrite persist_dirty in Hp by done.
  destruct (flush c w) as [[err c1] w1] eqn:Ef.
  apply flush_spec in Ef as (_ & _ & _ & _ & Hfs).
  rewrite Forall_singleton in Hrt.
  destruct err as [e|]; injection Hp as <- <- <-; simpl.
  - apply Hfs. intros Heq. by apply (new_suffix_differs (file c)).
  - destruct Hfs as (_ & data & HM & Hfs). unfold on_disk. simpl.
    rewrite Hfs, lookup_insert_eq, (Hrt data HM). f_equal.
    apply map_eq. intros name. rewrite lookup_foldl_insert, lookup_empty.
    rewrite (values_keyed (states c)); [by destruct (states c !! name)|done|].
    apply snapshot_entries.
Qed.

Lemma persist_sync (c : Checkpoint) (w : World) ok c' w' :
  persist c w = (ok, c', w') →
  keyed (states c) →
  in_sync c w →
  Forall round_trips (due_snapshot c w) →
  in_sync c' w' ∧ numUpdates c' = (if ok then 0 else numUpdates c) ∧
  states c' = states c ∧ file c' = file c.
Proof.
  intros Hp Hkeyed Hsync Hrt.
  pose proof (persist_on_disk _ _ _ _ _ Hp Hkeyed Hrt) as Hdisk.
  apply persist_frame in Hp as (_ & _ & _ & Hf & _ & _ & Hst & _ & Hn).
  split_and!; try done. unfold in_sync. rewrite Hf, Hst, Hn.
  destruct ok; [done|]. intros H0. rewrite (on_disk_same _ w w') by done. auto.
Qed.

Lemma run_iteration_sync (k : Wake) (p : Proc) (w : World) (b : Z) :
  keyed (states (self p)) →
  0 ≤ numUpdates (self p) ≤ b → b < 2 ^ 63 - 1 →
  in_sync (self p) w →
  Forall round_trips
    (if flush_due k (self p) then due_snapshot (received k (self p)) w else []) →
  let '(_, p', w') := run_iteration k p w in
  keyed (states (self p')) ∧ 0 ≤ numUpdates (self p') ≤ b + 1 ∧
  in_sync (self p') w' ∧ file (self p') = file (self p).
Proof.
  intros Hkeyed Hn Hb Hsync Hrt.
  set (c := received k (self p)).
  assert (keyed (states c)) as Hkeyed'.
  { subst c. destruct k; simpl; try done. by apply keyed_insert. }
  assert (file c = file (self p)) as Hfile by (by destruct k).
  assert (0 ≤ numUpdates c ≤ b + 1) as Hn'.
  { subst c. destruct k; simpl; try lia. rewrite int_incr_small; lia. }
  assert (in_sync c w) as Hsync'.
  { subst c. destruct k as [|s|]; try done.
    unfold in_sync. simpl. rewrite int_incr_small by lia. lia. }
  destruct (flush_due k (self p)) eqn:Hdue.
  - rewrite run_iteration_due by done. fold c.
    destruct (persist c w) as [[ok c'] w1] eqn:Ep.
    destruct (persist_sync _ _ _ _ _ Ep Hkeyed' Hsync' Hrt) as (Hs & Hnum & Hst & Hf).
    cbn [self]. split_and!.
    + by rewrite Hst.
    + rewrite Hnum. destruct ok; lia.
    + rewrite Hnum. destruct ok; lia.
    + intros H0. rewrite <-(Hs H0). by apply on_disk_same.
    + congruence.
  - assert (k ≠ RecvTimer) as Hk by (by destruct k).
    destruct k as [|s|]; [|by rewrite run_iteration_idle|done].
    rewrite run_iteration_done. simpl. split_and!; try done; lia.
Qed.

Lemma run_loop_sync (evs : list Event) (p : Proc) (w : World) (b : Z) :
  keyed (states (self p)) →
  0 ≤ numUpdates (self p) ≤ b → b + Z.of_nat (length evs) < 2 ^ 63 - 1 →
  in_sync (self p) w →
  Forall round_trips (loop_snapshots evs p w) →
  let '(_, p', w') := run_loop evs p w in
  keyed (states (self p')) ∧
  0 ≤ numUpdates (self p') ≤ b + Z.of_nat (length evs) ∧
  in_sync (self p') w' ∧ file (self p') = file (self p).
Proof.
  revert p w b. induction evs as [|[d|k] evs IH]; intros p w b Hkeyed Hn Hb Hsync Hrt.
  - simpl. split_and!; try done; simpl in Hb; lia.
  - simpl in *. unfold bind, modify.
    specialize (IH p (set_clock (clock w + Z.max 0 d) w) b Hkeyed Hn).
    destruct (run_loop evs p _) as [[again p'] w'].
    destruct IH as (? & ? & ? & ?); [lia|done|done|].
    split_and!; try done; lia.
  - simpl in Hrt, Hb. cbn [run_loop]. unfold bind.
    pose proof (run_iteration_sync k p w b Hkeyed Hn ltac:(lia) Hsync) as Hk.
    destruct (run_iteration k p w) as [[again p1] w1].
    apply Forall_app in Hrt as [Hrt1 Hrt2].
    destruct (Hk Hrt1) as (Hkeyed1 & Hn1 & Hsync1 & Hf1).
    destruct again; [|simpl; split_and!; try done; lia].
    specialize (IH p1 w1 (b + 1) Hkeyed1 Hn1 ltac:(lia) Hsync1 Hrt2).
    destruct (run_loop evs p1 w1) as [[again p'] w'].
    destruct IH as (? & ? & ? & ?).
    split_and!; try done; try (simpl length; lia). congruence.
Qed.

Lemma run_exit_sync (p : Proc) (w : World) :
  keyed (states (self p)) →
  in_sync (self p) w →
  Forall round_trips (due_snapshot (self p) w) →
  let '(p', w') := run_exit p w in
  keyed (states (self p')) ∧ in_sync (self p') w' ∧ file (self p') = file (self p).
Proof.
  intros Hkeyed Hsync Hrt. rewrite run_exit_eq.
  destruct (persist (self p) w) as [[ok c] w1] eqn:Ep.
  destruct (persist_sync _ _ _ _ _ Ep Hkeyed Hsync Hrt) as (Hs & _ & Hst & Hf).
  cbn [self]. split_and!.
  - simpl. by rewrite Hst.
  - intros H0.
    change (on_disk (file c) (add_trace OpTimerStop w1) = Some (states c)).
    rewrite <-(Hs H0). by apply on_disk_same.
  - done.
Qed.

Lemma NewCheckpoint_in_sync path m i (w : World) p err w0 :
  NewCheckpoint path m i w = (Some p, err, w0) →
  next_outcome w = Succeeds →
  keyed (states (self p)) ∧ numUpdates (self p) = 0 ∧ file (self p) = path ∧
  on_disk path w0 = Some (states (self p)).
Proof.
  rewrite NewCheckpoint_eq. cbv zeta. intros Hnew Hnext. revert Hnew.
  destruct (initial_fields path m i) as (_ & _ & _ & Hf & Hn & _ & _ & Hst).
  pose proof (read_world (initial path m i) w) as Hw.
  rewrite read_spec, Hf in * by done. simpl in Hw.
  assert (∀ l, states (foldl (λ c state, store state c) (initial path m i) l)
               = foldl (λ m s, <[Name s := s]> m) ∅ l) as Hseed
    by (intros l; by rewrite states_foldl_store, Hst).
  unfold on_disk. destruct (fs w !! path) as [data|] eqn:Efs.
  - destruct (yaml_Unmarshal data zero_PersistedState) as [e|ps] eqn:Ey; [done|].
    intros [= <- <- <-]. cbn [self states set_wg numUpdates file fs set_script add_trace].
    destruct (foldl_store_frame (States ps) (initial path m i))
      as (_ & _ & _ & -> & -> & _).
    rewrite Hseed, Efs, Ey. split_and!; try done.
    apply keyed_foldl_insert, map_Forall_empty.
  - intros [= <- <- <-]. cbn [self states set_wg numUpdates file fs set_script add_trace].
    rewrite Efs, Hst. split_and!; first [done | apply map_Forall_empty].
Qed.

Lemma reopen_on_disk path m i (w : World) t :
  on_disk path w = Some t →
  next_outcome w = Succeeds →
  ∃ p, (NewCheckpoint path m i w).1 = (Some p, None) ∧ states (self p) = t.
Proof.
  unfold on_disk. intros Hdisk Hnext. rewrite NewCheckpoint_eq. cbv zeta.
  destruct (initial_fields path m i) as (_ & _ & _ & Hf & _ & _ & _ & Hst).
  rewrite read_spec, Hf by done.
  destruct (fs w !! path) as [data|].
  - destruct (yaml_Unmarshal data zero_PersistedState) as [e|ps]; [done|].
    injection Hdisk as <-. eexists. split; [reflexivity|].
    cbn [self states set_wg]. by rewrite states_foldl_store, Hst.
  - injection Hdisk as <-. eexists. split; [reflexivity|]. done.
Qed.

(** X12.  A zero counter means the disk is up to date, whatever failed on
    the way.  Open a checkpoint, let the worker run and shut it down, with
    any calls failing: if the counter is zero in the end, a checkpoint
    opened later on the same file starts with exactly the table the first
    one ended with.  The YAML library enters through one assumption: the
    snapshots this run had to write come back as they were from what it
    marshalled them to. *)
Theorem clean_table_is_on_disk (path : string) (m : Z) (i : Duration)
    (evs : list Event) (w w0 : World) (p : Proc) :
  next_outcome w = Succeeds →
  NewCheckpoint path m i w = (Some p, None, w0) →
  Z.of_nat (length evs) < 2 ^ 63 - 2 →
  Forall round_trips (run_snapshots (evs ++ [Select RecvDone]) (shutting_down p) w0) →
  let '(p1, w1) := Shutdown evs p w0 in
  numUpdates (self p1) = 0 →
  ∀ w2 m' i',
    fs w2 !! path = fs w1 !! path → next_outcome w2 = Succeeds →
    ∃ p2, (NewCheckpoint path m' i' w2).1 = (Some p2, None) ∧
          Checkpoint_States (self p2) = Checkpoint_States (self p1).
Proof.
  intros Hnext Hnew Hlen Hrt.
  destruct (NewCheckpoint_in_sync _ _ _ _ _ _ _ Hnew Hnext)
    as (Hkeyed & Hn & Hfile & Hdisk).
  assert (once (self p) = false ∧ wg (self p) = 1%nat) as [Honce Hwg].
  { revert Hnew. rewrite NewCheckpoint_eq. cbv zeta.
    destruct (initial_fields path m i) as (Hwg & _ & Honce & _).
    destruct (read (initial path m i) w) as [[ps [e|]] w']; [done|].
    intros [= <- _]. cbn [self once wg set_wg].
    destruct ps as [ps|]; [|by rewrite Honce, Hwg].
    destruct (foldl_store_frame (States ps) (initial path m i))
      as (-> & _ & -> & _). by rewrite Honce, Hwg. }
  unfold Shutdown. rewrite Honce. cbn [self flushTimer]. fold (shutting_down p).
  unfold run. rewrite decide_False by (simpl; lia). unfold bind.
  unfold run_snapshots in Hrt.
  pose proof (run_loop_sync (evs ++ [Select RecvDone]) (shutting_down p) w0 0) as Hloop.
  pose proof (run_loop_closed evs (shutting_down p) w0 eq_refl) as Hleft.
  destruct (run_loop (evs ++ [Select RecvDone]) (shutting_down p) w0)
    as [[again p0] w'] eqn:Eloop.
  simpl in Hleft. subst again.
  apply Forall_app in Hrt as [Hrt1 Hrt2].
  destruct Hloop as (Hkeyed0 & _ & Hsync0 & Hfile0); try done.
  { simpl. lia. }
  { rewrite length_app. simpl. lia. }
  { intros _. simpl. by rewrite Hfile. }
  pose proof (run_exit_sync p0 w' Hkeyed0 Hsync0 Hrt2) as Hexit.
  destruct (run_exit p0 w') as [p1 w1].
  destruct Hexit as (_ & Hsync1 & Hfile1).
  intros Hclean w2 m' i' Hfs Hnext2.
  destruct (reopen_on_disk path m' i' w2 (states (self p1))) as (p2 & Hp2 & Hst2);
    [|done|exists p2; by rewrite !Checkpoint_States_eq].
  rewrite (on_disk_same _ w1 w2) by done.
  specialize (Hsync1 Hclean). rewrite Hfile1, Hfile0 in Hsync1. simpl in Hsync1.
  by rewrite Hfile in Hsync1.
Qed.

(** ** A world in which nothing fails *)

Lemma flush_quiet (c : Checkpoint) (w : World) :
  script w = [] →
  script (flush c w).2 = [] ∧
  (Forall marshals (due_snapshot c w) → numUpdates c ≠ 0 → (flush c w).1.1 = None).
Proof.
  intros Es. split.
  - unfold flush, os_Create, file_Write, file_Close, os_Rename, time_Now, bind, ret,
      modify, syscall.
    simpl. rewrite Es. simpl.
    destruct (yaml_Marshal _) as [e|data]; simpl.
    all: repeat (rewrite Es; simpl).
    all: rewrite ?lookup_insert_eq; simpl; by rewrite ?Es.
  - intros HM Hn. unfold due_snapshot in HM.
    apply Z.eqb_neq in Hn. rewrite Hn, Forall_singleton in HM.
    destruct HM as [data HM].
    assert (∀ k, outcome_at k w = Succeeds) as Hok
      by (intros k; unfold outcome_at; by rewrite Es).
    destruct (flush_cases c w)
      as [(e & n & H0 & _)
         |[(_ & e & HM' & _)
          |(_ & data' & _ & [(e & n & H1 & _)
                            |(_ & _ & [(e & n & H3 & _)|(_ & Hnone & _)])])]];
      [rewrite Hok in *; congruence|congruence|rewrite Hok in *; congruence
      |rewrite Hok in *; congruence|done].
Qed.

Lemma persist_quiet (c : Checkpoint) (w : World) :
  script w = [] →
  script (persist c w).2 = [] ∧
  (Forall marshals (due_snapshot c w) → numUpdates (persist c w).1.2 = 0).
Proof.
  intros Es. destruct (Z.eqb_spec (numUpdates c) 0) as [H0|H0].
  { by rewrite persist_clean. }
  rewrite persist_dirty by done.
  destruct (flush_quiet c w Es) as [Hscript Hnone].
  destruct (flush c w) as [[err c1] w1]. simpl in *.
  split.
  - by destruct err.
  - intros HM. by rewrite (Hnone HM H0).
Qed.

Lemma run_loop_quiet (evs : list Event) (p : Proc) (w : World) :
  script w = [] → script (run_loop evs p w).2 = [].
Proof.
  revert p w. induction evs as [|[d|k] evs IH]; intros p w Es; simpl; [done| |].
  - unfold bind, modify. by apply IH.
  - unfold bind.
    assert (script (run_iteration k p w).2 = []) as Hk.
    { destruct (flush_due k (self p)) eqn:Hdue.
      - rewrite run_iteration_due by done.
        destruct (persist_quiet (received k (self p)) w Es) as [Hs _].
        by destruct (persist _ w) as [[ok c'] w1].
      - destruct k as [|s|]; [|by rewrite run_iteration_idle|done].
        by rewrite run_iteration_done. }
    destruct (run_iteration k p w) as [[again p1] w1].
    destruct again; [by apply IH|done].
Qed.

(** X13.  In a world in which no call fails, and with a YAML library that
    marshals the snapshot the worker has to write on its way out,
    [Shutdown] leaves nothing pending: the counter is zero when it
    returns, and no error was logged on the way out. *)
Theorem Shutdown_without_failures (evs : list Event) (p : Proc) (w : World) :
  script w = [] →
  once (self p) = false →
  wg (self p) = 1%nat →
  let '(_, p0, w0) := run_loop (evs ++ [Select RecvDone]) (shutting_down p) w in
  Forall marshals (due_snapshot (self p0) w0) →
  let '(p1, w1) := Shutdown evs p w in
  numUpdates (self p1) = 0 ∧ script w1 = [] ∧
  Forall (λ l, ∀ msg, l ≠ LogErr msg) (drop (length (logs w0)) (logs w1)).
Proof.
  intros Es Honce Hwg.
  pose proof (run_loop_quiet (evs ++ [Select RecvDone]) (shutting_down p) w Es) as Hq.
  pose proof (run_loop_closed evs (shutting_down p) w eq_refl) as Hleft.
  unfold Shutdown. rewrite Honce. cbn [self flushTimer]. fold (shutting_down p).
  unfold run. rewrite decide_False by (simpl; lia). unfold bind.
  destruct (run_loop (evs ++ [Select RecvDone]) (shutting_down p) w)
    as [[again p0] w0].
  simpl in Hleft, Hq. subst again. intros HM.
  rewrite run_exit_eq.
  destruct (persist_quiet (self p0) w0 Hq) as [Hs Hn].
  specialize (Hn HM).
  destruct (Z.eqb_spec (numUpdates (self p0)) 0) as [H0|H0].
  { rewrite persist_clean in * by done. simpl. split_and!; try done.
    by rewrite drop_all. }
  rewrite persist_dirty in * by done.
  destruct (flush_quiet (self p0) w0 Hq) as [_ Hnone].
  specialize (Hnone HM H0).
  pose proof (flush_spec (self p0) w0) as Hspec.
  destruct (flush (self p0) w0) as [[err c1] w1] eqn:Ef.
  simpl in Hnone. subst err.
  destruct (Hspec _ _ _ eq_refl) as (_ & Hlogs & _).
  simpl in *. split_and!; try done.
  rewrite Hlogs, drop_app_length. by repeat constructor.
Qed.

(** ** The target file is replaced whole *)

Lemma kept_or_whole_trans (path : string) (w w1 w2 : World) :
  kept_or_whole path w w1 → kept_or_whole path w1 w2 → kept_or_whole path w w2.
Proof.
  intros H1 [H2|H2]; [|by right].
  destruct H1 as [H1|(ps & data & HM & H1)]; [left; congruence|].
  right. exists ps, data. split; [done|congruence].
Qed.

Lemma persist_kept_or_whole (c : Checkpoint) (w : World) :
  kept_or_whole (file c) w (persist c w).2.
Proof.
  destruct (Z.eqb_spec (numUpdates c) 0) as [H0|H0].
  { rewrite persist_clean by done. by left. }
  rewrite persist_dirty by done.
  destruct (flush c w) as [[err c1] w1] eqn:Ef.
  apply flush_spec in Ef as (_ & _ & _ & _ & Hfs).
  destruct err as [e|]; simpl.
  - left. apply Hfs. intros Heq. by apply (new_suffix_differs (file c)).
  - destruct Hfs as (_ & data & HM & Hfs). right.
    eexists _, data. split; [exact HM|]. simpl. by rewrite Hfs, lookup_insert_eq.
Qed.

Lemma run_loop_kept_or_whole (evs : list Event) (p : Proc) (w : World) :
  kept_or_whole (file (self p)) w (run_loop evs p w).2.
Proof.
  revert p w. induction evs as [|[d|k] evs IH]; intros p w; simpl.
  - by left.
  - unfold bind, modify.
    eapply kept_or_whole_trans; [|apply IH]. by left.
  - unfold bind.
    assert (kept_or_whole (file (self p)) w (run_iteration k p w).2) as Hk.
    { destruct (flush_due k (self p)) eqn:Hdue.
      - rewrite run_iteration_due by done.
        pose proof (persist_kept_or_whole (received k (self p)) w) as Hp.
        replace (file (received k (self p))) with (file (self p)) in Hp
          by (by destruct k).
        destruct (persist _ w) as [[ok c'] w1]. simpl in *.
        eapply kept_or_whole_trans; [exact Hp|]. by left.
      - destruct k as [|s|]; [|rewrite run_iteration_idle by done; by left|done].
        rewrite run_iteration_done. by left. }
    destruct (run_iteration k p w) as [[again p1] w1] eqn:E1.
    apply run_iteration_frame in E1 as (_ & _ & _ & Hf & _).
    destruct again; [|done]. simpl in Hk.
    eapply kept_or_whole_trans; [exact Hk|]. rewrite <-Hf. apply IH.
Qed.

(** X14.  Whatever the worker does and whatever fails, the target file is
    never left half written: after any run, and after [Shutdown], it is
    what it was before or it is all of what the YAML library made of a
    snapshot. *)
Theorem target_is_replaced_whole (evs : list Event) (p : Proc) (w : World) :
  kept_or_whole (file (self p)) w (run evs p w).2 ∧
  kept_or_whole (file (self p)) w (Shutdown evs p w).2.
Proof.
  assert (∀ evs p w, kept_or_whole (file (self p)) w (run evs p w).2) as Hrun.
  { clear. intros evs p w. unfold run. case_decide; [by left|]. unfold bind.
    pose proof (run_loop_kept_or_whole evs p w) as Hloop.
    destruct (run_loop evs p w) as [[again p1] w1] eqn:Eloop.
    apply run_loop_frame in Eloop as (_ & _ & _ & Hf & _).
    destruct again; [done|]. simpl in Hloop.
    eapply kept_or_whole_trans; [exact Hloop|].
    rewrite run_exit_eq.
    pose proof (persist_kept_or_whole (self p1) w1) as Hp.
    destruct (persist (self p1) w1) as [[ok c] w2]. simpl in *.
    rewrite <-Hf. eapply kept_or_whole_trans; [exact Hp|]. by left. }
  split; [apply Hrun|].
  unfold Shutdown. destruct (once (self p)); [by left|].
  cbn [self flushTimer]. apply (Hrun _ (shutting_down p)).
Qed.

(** ** A last flush that fails *)

(** X15.  When the flush on the worker's way out fails, nothing makes up
    for it: [Shutdown] returns with the updates still counted as pending
    and the target file as the loop left it, the worker is gone, and
    neither a wake-up nor another [Shutdown] does anything any more. *)
Theorem failed_last_flush_is_not_retried (evs : list Event) (p : Proc) (w : World) :
  once (self p) = false →
  wg (self p) = 1%nat →
  let '(_, p0, w0) := run_loop (evs ++ [Select RecvDone]) (shutting_down p) w in
  numUpdates (self p0) ≠ 0 →
  is_Some (flush (self p0) w0).1.1 →
  let '(p1, w1) := Shutdown evs p w in
  numUpdates (self p1) = numUpdates (self p0) ∧
  fs w1 !! file (self p) = fs w0 !! file (self p) ∧
  ∀ evs' w', run evs' p1 w' = (p1, w') ∧ Shutdown evs' p1 w' = (p1, w').
Proof.
  intros Honce Hwg.
  pose proof (run_loop_closed evs (shutting_down p) w eq_refl) as Hleft.
  unfold Shutdown at 1. rewrite Honce. cbn [self flushTimer]. fold (shutting_down p).
  unfold run at 1. rewrite decide_False by (simpl; lia). unfold bind.
  destruct (run_loop (evs ++ [Select RecvDone]) (shutting_down p) w)
    as [[again p0] w0] eqn:Eloop.
  simpl in Hleft. subst again.
  apply run_loop_frame in Eloop as (Hwg0 & _ & Honce0 & Hfile0 & _).
  simpl in Hwg0, Honce0, Hfile0.
  intros Hn [e He]. rewrite run_exit_eq, persist_dirty by done.
  destruct (flush (self p0) w0) as [[err c1] w1] eqn:Ef. simpl in He. subst err.
  apply flush_spec in Ef as (_ & _ & _ & Hc1 & Hfs).
  assert (numUpdates c1 = numUpdates (self p0) ∧ wg c1 = wg (self p0) ∧
          once c1 = once (self p0)) as (Hn1 & Hwg1 & Honce1)
    by (by destruct Hc1 as [-> | ->]).
  split_and!.
  - done.
  - simpl. rewrite <-Hfile0. apply Hfs. intros Heq.
    by apply (new_suffix_differs (file (self p0))).
  - intros evs' w'. split.
    + unfold run. simpl. rewrite decide_True; [done|]. lia.
    + unfold Shutdown. simpl. by rewrite Honce1, Honce0.
Qed.

End Proofs.

(** ** The theorems at work on the sample codec *)

Import SampleYAML.

(** A write to the temporary file that fails after five bytes. *)
Lemma failed_flush_keeps_last_snapshot_witness :
  let c := self busy in
  let w := world [("cp.yml", "old")] 1700 [Succeeds; Fails eio 5] in
  let e := fmt_Errorf ("Failed to flush state to disk. Could not write to "
                       +:+ "cp.yml.new. input/output error") in
  numUpdates c ≠ 0 ∧
  (flush (yaml := codec) c w).1.1 = Some e ∧
  fs (persist (yaml := codec) c w).2 !! "cp.yml" = Some "old" ∧
  fs (persist (yaml := codec) c w).2 !! "cp.yml.new" = Some "updat" ∧
  numUpdates (persist (yaml := codec) c w).1.2 = 2.
Proof.
  intros c w e.
  assert (numUpdates c ≠ 0) as H1 by (vm_compute; discriminate).
  assert ((flush (yaml := codec) c w).1.1 = Some e) as H2 by (vm_compute; reflexivity).
  pose proof (failed_flush_keeps_last_snapshot (yaml := codec) c w e H1 H2) as H.
  destruct (persist (yaml := codec) c w) as [[ok c'] w'] eqn:Ep.
  destruct H as (_ & Hfs & _ & Hnum & _).
  split_and!; [exact H1|exact H2|..].
  - simpl. change "cp.yml" with (file c). rewrite Hfs. vm_compute. reflexivity.
  - replace w' with (persist (yaml := codec) c w).2 by (by rewrite Ep).
    vm_compute. reflexivity.
  - simpl. rewrite Hnum. reflexivity.
Defined.

Lemma busy_keyed : keyed (states (self busy)).
Proof.
  unfold busy; simpl.
  repeat apply (keyed_insert _ (Persist _ _ _)). apply map_Forall_empty.
Qed.


(** Two updates of one log, the first of which reaches the threshold. *)
Lemma last_write_wins_witness :
  let evs := [Select (RecvSave (Persist "System" 43 1700)); Elapse 5;
              Select (RecvSave (Persist "System" 44 1800))] in
  let w := world [] 1700 [] in
  keyed (states (self busy)) ∧
  Checkpoint_States (self (run_loop (yaml := codec) evs busy w).1.2) !! "System"
  = Some {| Name := "System"; RecordNumber := 44; Timestamp := 1800 |}.
Proof.
  intros evs w. split; [exact busy_keyed|].
  pose proof (last_write_wins (yaml := codec) evs busy w "System" busy_keyed) as H.
  destruct (run_loop (yaml := codec) evs busy w) as [[again p'] w'].
  destruct H as [H _]. simpl. rewrite H. vm_compute. reflexivity.
Defined.

(** The third pending update of a checkpoint whose threshold is three. *)
Lemma flush_trigger_policy_witness :
  let k := RecvSave (Persist "System" 43 1700) in
  let w := world [] 1700 [] in
  flush_due k (self busy) = true ∧
  (run_iteration (yaml := codec) k busy w).1.1 = true ∧
  flushTimer (run_iteration (yaml := codec) k busy w).1.2
  = {| deadline := 1700 + time_Second; armed := true |} ∧
  flush_attempts (trace (run_iteration (yaml := codec) k busy w).2) = 1%nat.
Proof.
  intros k w.
  pose proof (flush_trigger_policy (yaml := codec) k busy w) as H.
  cbv zeta in H.
  destruct (run_iteration (yaml := codec) k busy w) as [[again p'] w'].
  destruct H as [Hagain H].
  change (flush_due k (self busy)) with true in H.
  destruct (persist (yaml := codec) (received k (self busy)) w) as [[ok c'] w1].
  destruct H as (_ & _ & _ & Htimer & Hatt).
  split_and!; [reflexivity|exact Hagain|exact Htimer|exact Hatt].
Defined.

(** Two shutdowns of a checkpoint with updates pending. *)
Lemma Shutdown_idempotent_witness :
  let w := world [("cp.yml", "old")] 1700 [] in
  let r := Shutdown (yaml := codec) [] busy w in
  once (self busy) = false ∧
  wg (self busy) = 1%nat ∧
  Shutdown (yaml := codec) [Select RecvTimer] r.1 r.2 = r ∧
  flush_attempts (trace r.2) = 1%nat.
Proof.
  intros w r.
  pose proof (Shutdown_idempotent (yaml := codec) [] [Select RecvTimer] busy w
                eq_refl eq_refl) as H.
  cbv zeta in H.
  destruct (run_loop (yaml := codec) ([] ++ [Select RecvDone]) _ w)
    as [[again p0] w0] eqn:Eloop.
  vm_compute in Eloop. injection Eloop as <- <- <-.
  subst r. destruct (Shutdown (yaml := codec) [] busy w) as [p1 w1].
  destruct H as (_ & _ & Hatt & _ & _ & _ & _ & Htwice).
  split_and!; [reflexivity|reflexivity|exact Htwice|exact Hatt].
Defined.

(** A file with three logs. *)
Lemma NewCheckpoint_loads_witness :
  let w := world [("cp.yml", saved_text)] 1800 [] in
  next_outcome w = Succeeds ∧
  ∃ p, (NewCheckpoint (yaml := codec) "cp.yml" 3 time_Second w).1 = (Some p, None) ∧
       Checkpoint_States (self p) !! "Security" = Some sec_log.
Proof.
  intros w.
  assert (next_outcome w = Succeeds) as H1 by reflexivity.
  pose proof (NewCheckpoint_loads (yaml := codec) "cp.yml" 3 time_Second w H1) as H.
  assert (fs w !! "cp.yml" = Some saved_text) as Hfs by (vm_compute; reflexivity).
  assert (yaml_Unmarshal (YAML := codec) saved_text zero_PersistedState = inr saved)
    as Hy by (vm_compute; reflexivity).
  rewrite Hfs, Hy in H. destruct H as (p & Hp & Hlook & _).
  split; [exact H1|]. exists p. split; [exact Hp|].
  rewrite Hlook. vm_compute. reflexivity.
Defined.

(** The snapshot of three logs that were stored out of order. *)
Lemma persisted_snapshot_sorted_witness :
  let c := self busy in
  let w := world [] 1700 [] in
  let c1 := (flush (yaml := codec) c w).1.2 in
  let w1 := (flush (yaml := codec) c w).2 in
  keyed (states c) ∧
  flush (yaml := codec) c w = (None, c1, w1) ∧
  ∃ ps data, Marshal ps = inr data ∧ fs w1 !! "cp.yml" = Some data ∧
             Sorted String.le (Name <$> States ps).
Proof.
  intros c w c1 w1.
  assert (flush (yaml := codec) c w = (None, c1, w1)) as H2
    by (vm_compute; reflexivity).
  destruct (persisted_snapshot_sorted (yaml := codec) c c1 w w1 busy_keyed H2)
    as (ps & data & _ & HM & Hfs & Hsorted & _).
  split_and!; [exact busy_keyed|exact H2|].
  exists ps, data. split_and!; [exact HM|exact Hfs|exact Hsorted].
Defined.

(** The timer fires on a checkpoint with nothing pending. *)
Lemma clean_persist_touches_nothing_witness :
  let w := world [("cp.yml", saved_text)] 1900 [Fails eio 0] in
  numUpdates (self idle) = 0 ∧
  persist (yaml := codec) (self idle) w = (false, self idle, w).
Proof.
  intros w. split; [reflexivity|].
  by destruct (clean_persist_touches_nothing (yaml := codec) idle w eq_refl) as [H _].
Defined.

(** A file of length zero. *)
Lemma empty_file_opens_empty_witness :
  let w := world [("cp.yml", "")] 1700 [] in
  next_outcome w = Succeeds ∧
  fs w !! "cp.yml" = Some "" ∧
  Unmarshal "" zero_PersistedState = inr zero_PersistedState ∧
  ∃ p, (NewCheckpoint (yaml := codec) "cp.yml" 3 time_Second w).1 = (Some p, None) ∧
       Checkpoint_States (self p) = ∅.
Proof.
  intros w.
  assert (fs w !! "cp.yml" = Some "") as H2 by (vm_compute; reflexivity).
  destruct (empty_file_opens_empty (yaml := codec) "cp.yml" 3 time_Second w
              eq_refl H2 eq_refl) as (p & Hp & Hempty & _).
  split_and!; [reflexivity|exact H2|reflexivity|].
  exists p. by split.
Defined.

(** ** Three sessions *)

(** A fresh start with a threshold of one: the first update is on disk as
    soon as the worker has taken it. *)
Example fresh_start :
  reload "cp.yml"
    (session "cp.yml" 1 time_Second
       [Select (RecvSave (Persist "App" 10 7))] false (world [] 100 [])).2
  = Some [Persist "App" 10 7].
Proof. vm_compute. reflexivity. Qed.

(** Four updates under a threshold of five: nothing on disk until the
    shutdown, and then all four, by name. *)
Example batched_flush :
  let evs := [Select (RecvSave (Persist "System" 4 1)); Elapse 20;
              Select (RecvSave (Persist "Application" 9 2));
              Select (RecvSave (Persist "Setup" 1 3));
              Select (RecvSave (Persist "Security" 6 4))] in
  let hour := 3600 * time_Second in
  reload "cp.yml" (session "cp.yml" 5 hour evs false (world [] 100 [])).2 = None ∧
  reload "cp.yml" (session "cp.yml" 5 hour evs true (world [] 100 [])).2
  = Some [Persist "Application" 9 2; Persist "Security" 6 4;
          Persist "Setup" 1 3; Persist "System" 4 1].
Proof. split; vm_compute; reflexivity. Qed.

(** A restart on a file left by an earlier run. *)
Example resume :
  match (session "cp.yml" 5 time_Second [] false
           (world [("cp.yml", saved_text)] 2000 [])).1 with
  | Some p =>
      Checkpoint_States (self p) !! "Application" = Some app_log ∧
      Checkpoint_States (self p) !! "Security" = Some sec_log ∧
      Checkpoint_States (self p) !! "System" = Some sys_log ∧
      size (Checkpoint_States (self p)) = 3%nat
  | None => False
  end.
Proof. vm_compute. repeat split; reflexivity. Qed.

(** ** The further theorems at work *)

(** A write that fails after five bytes leaves them in the [.new] file. *)
Lemma failed_flush_leaves_temp_file_witness :
  let c := self busy in
  let w := world [("cp.yml", "old")] 1700 [Succeeds; Fails eio 5] in
  outcome_at 0 w = Succeeds ∧
  is_Some (flush (yaml := codec) c w).1.1 ∧
  ∃ content, fs (flush (yaml := codec) c w).2 !! "cp.yml.new" = Some content.
Proof.
  intros c w.
  assert (is_Some (flush (yaml := codec) c w).1.1) as H2
    by (vm_compute; by eexists).
  destruct (failed_flush_leaves_temp_file (yaml := codec) c w eq_refl H2)
    as (content & Hcontent & _).
  split_and!; [reflexivity|exact H2|]. by exists content.
Defined.

(** The keys of three logs, handed over in reverse. *)
Lemma keys_sorted_any_order_witness :
  let c := self busy in
  let ks := reverse (map_to_list (states c)).*1 in
  ks ≡ₚ (map_to_list (states c)).*1 ∧
  sort_Strings ks = sorted_names c.
Proof.
  intros c ks.
  assert (ks ≡ₚ (map_to_list (states c)).*1) as H by apply reverse_Permutation.
  split; [exact H|]. exact (keys_sorted_any_order c ks H).
Defined.

(** A worker that is told [done] fired while [done] is open. *)
Lemma worker_stays_until_done_witness :
  let evs := [Select RecvDone; Select (RecvSave (Persist "System" 43 1700))] in
  let w := world [] 1700 [] in
  done (self busy) = false ∧
  (run_loop (yaml := codec) evs busy w).1.1 = true ∧
  wg (self (run (yaml := codec) evs busy w).1) = 1%nat.
Proof.
  intros evs w.
  destruct (worker_stays_until_done (yaml := codec) evs busy w eq_refl)
    as (Hloop & Hwg & _).
  split_and!; [reflexivity|exact Hloop|exact Hwg].
Defined.

(** Two updates under a threshold of three. *)
Lemma below_threshold_no_io_witness :
  let saves := [app_log; sys_log] in
  let w := world [("cp.yml", "old")] 1700 [Fails eio 0] in
  0 ≤ numUpdates (self idle) ∧
  numUpdates (self idle) + Z.of_nat (length saves) < maxUpdates (self idle) ∧
  maxUpdates (self idle) ≤ 2 ^ 63 - 1 ∧
  (run_loop (yaml := codec) ((λ s, Select (RecvSave s)) <$> saves) idle w).2 = w.
Proof.
  intros saves w.
  assert (0 ≤ numUpdates (self idle)) as H1 by (vm_compute; discriminate).
  assert (numUpdates (self idle) + Z.of_nat (length saves) < maxUpdates (self idle))
    as H2 by (vm_compute; reflexivity).
  assert (maxUpdates (self idle) ≤ 2 ^ 63 - 1) as H3 by (vm_compute; discriminate).
  pose proof (below_threshold_no_io (yaml := codec) saves idle w H1 H2 H3) as H.
  destruct (run_loop (yaml := codec) _ idle w) as [[again p'] w'].
  destruct H as (_ & Hw & _).
  split_and!; [exact H1|exact H2|exact H3|exact Hw].
Defined.

(** A file that is there and cannot be read. *)
Lemma NewCheckpoint_read_error_witness :
  let w := world [("cp.yml", saved_text)] 1700 [Fails eio 0] in
  next_outcome w = Fails eio 0 ∧
  (NewCheckpoint (yaml := codec) "cp.yml" 3 time_Second w).1 = (None, Some eio).
Proof.
  intros w. split; [reflexivity|].
  exact (NewCheckpoint_read_error (yaml := codec) "cp.yml" 3 time_Second w eio 0%nat
           eq_refl).
Defined.

(** Nothing fails while a checkpoint with two updates pending shuts down. *)
Lemma Shutdown_without_failures_witness :
  let w := world [("cp.yml", "old")] 1700 [] in
  script w = [] ∧ once (self busy) = false ∧ wg (self busy) = 1%nat ∧
  numUpdates (self (Shutdown (yaml := codec) [] busy w).1) = 0.
Proof.
  intros w.
  pose proof (Shutdown_without_failures (yaml := codec) [] busy w
                eq_refl eq_refl eq_refl) as H.
  destruct (run_loop (yaml := codec) ([] ++ [Select RecvDone]) _ w)
    as [[again p0] w0] eqn:Eloop.
  vm_compute in Eloop. injection Eloop as <- <- <-.
  match type of H with ?A → _ => assert A as HM end.
  { apply Forall_singleton. eexists. vm_compute. reflexivity. }
  specialize (H HM).
  destruct (Shutdown (yaml := codec) [] busy w) as [p1 w1].
  destruct H as (Hn & _).
  split_and!; [reflexivity|reflexivity|reflexivity|exact Hn].
Defined.

(** The temporary file cannot be created while the checkpoint shuts down. *)
Lemma failed_last_flush_is_not_retried_witness :
  let w := world [("cp.yml", "old")] 1700 [Fails eio 0] in
  once (self busy) = false ∧ wg (self busy) = 1%nat ∧
  numUpdates (self (Shutdown (yaml := codec) [] busy w).1) = 2 ∧
  fs (Shutdown (yaml := codec) [] busy w).2 !! "cp.yml" = Some "old".
Proof.
  intros w.
  pose proof (failed_last_flush_is_not_retried (yaml := codec) [] busy w
                eq_refl eq_refl) as H.
  destruct (run_loop (yaml := codec) ([] ++ [Select RecvDone]) _ w)
    as [[again p0] w0] eqn:Eloop.
  vm_compute in Eloop. injection Eloop as <- <- <-.
  match type of H with ?A → ?B → _ => assert A as H1; [|assert B as H2] end.
  { vm_compute. discriminate. }
  { vm_compute. by eexists. }
  specialize (H H1 H2).
  destruct (Shutdown (yaml := codec) [] busy w) as [p1 w1].
  destruct H as (Hn & Hfs & _).
  split_and!; [reflexivity|reflexivity|exact Hn|].
  simpl. change "cp.yml" with (file (self busy)). rewrite Hfs.
  vm_compute. reflexivity.
Defined.

(** A session in which the first flush fails and a later one succeeds. *)
Lemma clean_table_is_on_disk_witness :
  let evs := [Select (RecvSave app_log); Select (RecvSave sys_log);
              Elapse time_Second; Select RecvTimer;
              Select (RecvSave sec_log)] in
  let w := world [] 100 [Succeeds; Fails eio 0] in
  let r := NewCheckpoint (yaml := codec) "cp.yml" 2 time_Second w in
  let p := default busy r.1.1 in
  let s := Shutdown (yaml := codec) evs p r.2 in
  next_outcome w = Succeeds ∧
  r = (Some p, None, r.2) ∧
  Z.of_nat (length evs) < 2 ^ 63 - 2 ∧
  Forall (round_trips (yaml := codec))
    (run_snapshots (yaml := codec) (evs ++ [Select RecvDone]) (shutting_down p) r.2) ∧
  numUpdates (self s.1) = 0 ∧
  ∃ p2, (NewCheckpoint (yaml := codec) "cp.yml" 7 0 (set_script [] s.2)).1
        = (Some p2, None) ∧
        Checkpoint_States (self p2) = Checkpoint_States (self s.1).
Proof.
  intros evs w r p s.
  assert (r = (Some p, None, r.2)) as H2 by (vm_compute; reflexivity).
  assert (Z.of_nat (length evs) < 2 ^ 63 - 2) as H3 by (vm_compute; reflexivity).
  assert (Forall (round_trips (yaml := codec))
            (run_snapshots (yaml := codec) (evs ++ [Select RecvDone])
               (shutting_down p) r.2)) as H4.
  { let l := eval vm_compute in
        (run_snapshots (yaml := codec) (evs ++ [Select RecvDone])
           (shutting_down p) r.2) in
    replace (run_snapshots (yaml := codec) (evs ++ [Select RecvDone])
               (shutting_down p) r.2) with l by (vm_compute; reflexivity).
    repeat (apply Forall_cons; split;
            [intros data H; vm_compute in H; injection H as <-;
             vm_compute; reflexivity|]).
    apply Forall_nil_2. }
  assert (numUpdates (self s.1) = 0) as H5 by (vm_compute; reflexivity).
  pose proof (clean_table_is_on_disk (yaml := codec) "cp.yml" 2 time_Second evs
                w r.2 p eq_refl H2 H3 H4) as H.
  fold s in H. destruct s as [p1 w1]. simpl in H5.
  destruct (H H5 (set_script [] w1) 7 0 eq_refl eq_refl) as (p2 & Hp2 & Hst).
  split_and!; [reflexivity|exact H2|exact H3|exact H4|exact H5|].
  exists p2. by split.
Defined.

(** ** The round trip and the library's time stamps *)

(** The instants of the two time stamps, as the codec writes them. *)
Example time_stamps_written :
  Yaml24.show_time Yaml24.spring_2016 = "2016-03-01T12:30:00.5Z" ∧
  Yaml24.show_time Yaml24.year_10000 = "10000-01-01T00:00:00Z" ∧
  Yaml24.parse_time "2016-03-01T12:30:00.5Z" = Some Yaml24.spring_2016 ∧
  Yaml24.parse_time "10000-01-01T00:00:00Z" = None.
Proof. repeat split; vm_compute; reflexivity. Qed.

(** A log whose last event is of 2016 is read back as it was flushed. *)
Example flush_then_read_2016 :
  let c := Yaml24.one_log Yaml24.spring_2016 in
  let w := world [] Yaml24.spring_2016 [] in
  let r := flush (yaml := Yaml24.codec) c w in
  r.1.1 = None ∧
  (read (yaml := Yaml24.codec) c r.2).1
  = (Some {| UpdateTime := Yaml24.spring_2016;
             States := [Persist "Application" 10 Yaml24.spring_2016] |}, None).
Proof. split; vm_compute; reflexivity. Qed.


(** Arguments below the floors, and no file to read. *)
Lemma NewCheckpoint_clamps_witness :
  let w := world [] 1700 [] in
  ∃ p, (NewCheckpoint (yaml := codec) "cp.yml" (-3) 5 w).1 = (Some p, None) ∧
       maxUpdates (self p) = 1 ∧ flushInterval (self p) = time_Second ∧
       deadline (flushTimer p) = 1700 + time_Second.
Proof.
  intros w.
  destruct (NewCheckpoint_clamps (yaml := codec) "cp.yml" (-3) 5 w) as [_ H].
  change (next_outcome w) with Succeeds in H.
  assert (fs w !! "cp.yml" = None) as Hfs by (vm_compute; reflexivity).
  rewrite Hfs in H.
  destruct H as (p & Hp & Hmax & Hint & _ & _ & Htimer).
  exists p. split_and!; [exact Hp|exact Hmax|exact Hint|].
  rewrite Htimer, Hint. reflexivity.
Defined.
